(** * vep-annotation-reporter: a shallow embedding and its properties

    The development follows [vcf_annotation_tools/vep_annotation_reporter.py].
    Python [str] values are [string]s (their characters are the 256 one-byte
    characters), Python dicts are [gmap]s, Python lists are [list]s, and a
    raised exception is the [Raise] case of [result].  Everything the script
    obtains from [cyvcf2] and [csv] (header entries, variant records with
    their [is_indel]/[is_sv] flags, report rows) is input data of the model;
    a report row is taken to hold a value for each of its columns. *)

From Stdlib Require Import Ascii String.
From stdpp Require Import gmap strings list fin_maps pretty.

Open Scope string_scope.

(** ** Exceptions and results *)

(** The exceptions the script can raise.  [SystemExit] carries the four values
    that [sys.exit] formats into its message (CHR, POS, REF, ALT). *)
Inductive exn : Type :=
  | KeyError (key : string)
  | NameError (name : string)
  | IndexError
  | TypeError
  | AttributeError
  | BinasciiError
  | UnicodeDecodeError
  | SystemExit (chr pos ref alt : string).

Inductive result (A : Type) : Type :=
  | Return (a : A)
  | Raise (e : exn).
Arguments Return {A} a.
Arguments Raise {A} e.

#[global] Instance result_ret : MRet result := fun _ a => Return a.
#[global] Instance result_bind : MBind result := fun _ _ f m =>
  match m with
  | Return a => f a
  | Raise e => Raise e
  end.

Definition returns {A} (m : result A) : Prop := exists a, m = Return a.

(** [d[k]] on a dict with string keys: a missing key raises [KeyError]. *)
Definition getitem {V} (d : gmap string V) (k : string) : result V :=
  match d !! k with
  | Some v => Return v
  | None => Raise (KeyError k)
  end.

(** ** Strings *)

(** [s[0:1]] *)
Definition slice01 (s : string) : string :=
  match s with
  | String c _ => String c ""
  | "" => ""
  end.

(** [s[1:]] *)
Definition slice1 (s : string) : string :=
  match s with
  | String _ t => t
  | "" => ""
  end.

(** [s.split(sep)] for a one-character separator: never the empty list. *)
Fixpoint split (sep : ascii) (s : string) : list string :=
  match s with
  | "" => [""]
  | String c t =>
      if decide (c = sep) then "" :: split sep t
      else match split sep t with
           | h :: r => String c h :: r
           | [] => [String c ""]
           end
  end.

(** [sep.join(l)] *)
Fixpoint join (sep : string) (l : list string) : string :=
  match l with
  | [] => ""
  | [x] => x
  | x :: r => x ++ sep ++ join sep r
  end.

(** ** Annotation records *)

(** One annotation record: field name to raw value. *)
Abbreviation record := (gmap string string).

(** [for key, value in zip(csq_fields, values): transcript[key] = value] *)
Fixpoint fill_record (transcript : record) (csq_fields values : list string)
  : record :=
  match csq_fields, values with
  | key :: fs, value :: vs => fill_record (<[key := value]> transcript) fs vs
  | _, _ => transcript
  end.

(** The body of the loop of [parse_csq_entries] for one entry. *)
Definition add_entry (csq_fields : list string)
    (transcripts : gmap string (list record)) (entry : string)
  : result (gmap string (list record)) :=
  let values := split "|" entry in
  let transcript := fill_record ∅ csq_fields values in
  allele ← getitem transcript "Allele";
  let transcripts :=
    match transcripts !! allele with
    | None => <[allele := []]> transcripts
    | Some _ => transcripts
    end in
  group ← getitem transcripts allele;
  mret (<[allele := (group ++ [transcript])%list]> transcripts).

Fixpoint parse_entries_from (csq_fields : list string)
    (transcripts : gmap string (list record)) (csq_entries : list string)
  : result (gmap string (list record)) :=
  match csq_entries with
  | [] => mret transcripts
  | entry :: rest =>
      transcripts ← add_entry csq_fields transcripts entry;
      parse_entries_from csq_fields transcripts rest
  end.

(** [parse_csq_entries(csq_entries, csq_fields)].  [csq_fields] is [None] when
    [parse_csq_header] fell through its loop; [zip] then raises [TypeError] on
    the first entry. *)
Definition parse_csq_entries (csq_entries : list string)
    (csq_fields : option (list string)) : result (gmap string (list record)) :=
  match csq_fields with
  | Some fields => parse_entries_from fields ∅ csq_entries
  | None =>
      match csq_entries with
      | [] => mret ∅
      | _ :: _ => Raise TypeError
      end
  end.

(** ** Transcript selection *)

(** ['PICK' in transcript and transcript['PICK'] == '1'] *)
Definition picked (transcript : record) : bool :=
  bool_decide (transcript !! "PICK" = Some "1").

Fixpoint first_picked (l : list record) : option record :=
  match l with
  | [] => None
  | transcript :: rest =>
      if picked transcript then Some transcript else first_picked rest
  end.

(** [l[0]] *)
Definition getitem0 (l : list record) : result record :=
  match l with
  | x :: _ => Return x
  | [] => Raise IndexError
  end.

Definition transcript_for_alt (transcripts : gmap string (list record))
    (alt : string) : result record :=
  group ← getitem transcripts alt;
  match first_picked group with
  | Some transcript => mret transcript
  | None =>
      group ← getitem transcripts alt;
      getitem0 group
  end.

(** ** Allele resolution *)

(** A variant as [cyvcf2] hands it to the script.  [is_indel] and [is_sv] are
    the reader's classification flags; [INFO_CSQ] is [variant.INFO.get('CSQ')]. *)
Record variant : Type := {
  CHROM : string;
  POS : N;
  REF : string;
  ALT : list string;
  is_indel : bool;
  is_sv : bool;
  INFO_CSQ : option string
}.

(** The indel rule for one ALT. *)
Definition indel_allele (ref alt : string) : string :=
  if decide (slice01 alt ≠ slice01 ref) then alt
  else if decide (slice1 alt = "") then "-"
  else slice1 alt.

(** The body of the loop of the structural-variant branch. *)
Definition sv_step (ref : string) (csq_alleles : gset string)
    (alleles : gmap string string) (alt : string) : result (gmap string string) :=
  if bool_decide (String.length ref < String.length alt)
     && bool_decide ("insertion" ∈ csq_alleles)
  then mret (<[alt := "insertion"]> alleles)
  else if bool_decide (String.length alt < String.length ref)
          && bool_decide ("deletion" ∈ csq_alleles)
  then mret (<[alt := "deletion"]> alleles)
  else if bool_decide (size csq_alleles = 1)
  then match elements csq_alleles with
       | sole :: _ => mret (<[alt := sole]> alleles)
       | [] => Raise IndexError
       end
  else mret alleles.

Fixpoint sv_loop (ref : string) (csq_alleles : gset string)
    (alleles : gmap string string) (alts : list string)
  : result (gmap string string) :=
  match alts with
  | [] => mret alleles
  | alt :: rest =>
      alleles ← sv_step ref csq_alleles alleles alt;
      sv_loop ref csq_alleles alleles rest
  end.

(** [resolve_alleles], with the binding of the free name [alts] made explicit.
    The structural-variant branch iterates over [alts], a name that is neither
    a parameter nor a local of [resolve_alleles]: Python looks it up among the
    module's globals, and [globals_alts] is what it finds there. *)
Definition resolve_alleles_in (globals_alts : option (list string))
    (entry : variant) (csq_alleles : gset string) : result (gmap string string) :=
  if is_indel entry then
    mret (foldl (fun alleles alt => <[alt := indel_allele (REF entry) alt]> alleles)
                ∅ (ALT entry))
  else if is_sv entry then
    match globals_alts with
    | None => Raise (NameError "alts")
    | Some alts => sv_loop (REF entry) csq_alleles ∅ alts
    end
  else
    mret (foldl (fun alleles alt => <[alt := alt]> alleles) ∅ (ALT entry)).

(** The module binds its imports and its six functions at top level and nothing
    else; the [alts] of [main] is a local of [main]. *)
Definition module_globals_alts : option (list string) := None.

Definition resolve_alleles : variant -> gset string -> result (gmap string string) :=
  resolve_alleles_in module_globals_alts.

(** ** Percent-decoding *)

(** The character class [[0-9|A-F]] of the pattern given to [re.sub]. *)
Definition in_class (c : ascii) : bool :=
  let n := N_of_ascii c in
  ((48 <=? n) && (n <=? 57) || (n =? 124) || (65 <=? n) && (n <=? 70))%N.

(** The value of one digit for [binascii.unhexlify], which takes both cases. *)
Definition hex_value (c : ascii) : option N :=
  let n := N_of_ascii c in
  if ((48 <=? n) && (n <=? 57))%N then Some (n - 48)%N
  else if ((65 <=? n) && (n <=? 70))%N then Some (n - 55)%N
  else if ((97 <=? n) && (n <=? 102))%N then Some (n - 87)%N
  else None.

(** [decode_hex] on a match ["%ab"] of the pattern, given as the two characters
    [a] and [b] that remain once ['%'] is removed.  [unhexlify] yields one
    byte; one byte is valid UTF-8 exactly when it is below 128. *)
Definition decode_hex (a b : ascii) : result string :=
  match hex_value a, hex_value b with
  | Some x, Some y =>
      let byte := (16 * x + y)%N in
      if (byte <? 128)%N then mret (String (ascii_of_N byte) "")
      else Raise UnicodeDecodeError
  | _, _ => Raise BinasciiError
  end.

(** [re.sub(r'%[0-9|A-F][0-9|A-F]', decode_hex, annotation)]: matches are found
    left to right and do not overlap; [decode_hex] is called on each as it is
    found. *)
Fixpoint decode_annotation (annotation : string) : result string :=
  match annotation with
  | "" => mret ""
  | String c t =>
      match t with
      | String a (String b rest) =>
          if bool_decide (c = "%"%char) && in_class a && in_class b then
            d ← decode_hex a b;
            r ← decode_annotation rest;
            mret (d ++ r)
          else
            r ← decode_annotation t;
            mret (String c r)
      | _ =>
          r ← decode_annotation t;
          mret (String c r)
      end
  end.

(** ** The CSQ header *)

Definition quote : ascii := ascii_of_N 34.
Definition newline : ascii := ascii_of_N 10.

(** [s] without the prefix [p], when it has it. *)
Fixpoint strip_prefix (p s : string) : option string :=
  match p, s with
  | "", _ => Some s
  | String a p', String b s' => if decide (a = b) then strip_prefix p' s' else None
  | String _ _, "" => None
  end.

(** What the dot of the pattern can range over: the text up to the next
    newline. *)
Fixpoint line_of (s : string) : string :=
  match s with
  | "" => ""
  | String c t => if decide (c = newline) then "" else String c (line_of t)
  end.

(** The text before the last [quote] of [s]: what a greedy group captures when
    a quote has to follow it. *)
Fixpoint before_last_quote (s : string) : option string :=
  match s with
  | "" => None
  | String c t =>
      match before_last_quote t with
      | Some g => Some (String c g)
      | None => if decide (c = quote) then Some "" else None
      end
  end.

(** A match of the pattern anchored at the start of [s]; its group 1. *)
Definition format_match_here (s : string) : option string :=
  rest ← strip_prefix "Format: " s;
  before_last_quote (line_of rest).

(** [format_pattern.search(description)]: the leftmost match; its group 1. *)
Fixpoint format_search (description : string) : option string :=
  match format_match_here description with
  | Some g => Some g
  | None =>
      match description with
      | "" => None
      | String _ t => format_search t
      end
  end.

(** [header.info(extra=True)]: the keys and values of one header entry. *)
Abbreviation header_info := (gmap string string).

(** [parse_csq_header].  Falling off the end of the loop returns [None]. *)
Fixpoint parse_csq_header (header : list header_info)
  : result (option (list string)) :=
  match header with
  | [] => mret None
  | info :: rest =>
      if bool_decide (info !! "ID" = Some "CSQ") then
        description ← getitem info "Description";
        match format_search description with
        | Some g => mret (Some (split "|" g))
        | None => Raise AttributeError
        end
      else parse_csq_header rest
  end.

(** ** The allele index *)

(** [vep[chr][pos][ref][alt]], holding a record or [None]. *)
Abbreviation alt_slot := (gmap string (option record)).
Abbreviation allele_index := (gmap string (gmap string (gmap string alt_slot))).

Definition level {V} `{Empty V} (d : gmap string V) (k : string) : V :=
  default ∅ (d !! k).

(** The dict [vep[chr][pos][ref]] once the three [if ... not in ...] lines of
    [main] have run (empty if they had to create it). *)
Definition slot_at (vep : allele_index) (chr pos ref : string) : alt_slot :=
  level (level (level vep chr) pos) ref.

(** [vep] after those three lines and after the loop over the ALTs has left
    [slot] in [vep[chr][pos][ref]]. *)
Definition with_slot (vep : allele_index) (chr pos ref : string) (slot : alt_slot)
  : allele_index :=
  <[chr := <[pos := <[ref := slot]> (level (level vep chr) pos)]> (level vep chr)]> vep.

(** The loop over the ALTs of a variant that carries a CSQ value. *)
Fixpoint store_alts (transcripts : gmap string (list record))
    (alleles_dict : gmap string string) (chr pos ref : string)
    (slot : alt_slot) (alts : list string) : result alt_slot :=
  match alts with
  | [] => mret slot
  | alt :: rest =>
      match slot !! alt with
      | None =>
          token ← getitem alleles_dict alt;
          stored ← match transcripts !! token with
                   | Some _ =>
                       transcript ← transcript_for_alt transcripts token;
                       mret (Some transcript)
                   | None => mret None
                   end;
          store_alts transcripts alleles_dict chr pos ref (<[alt := stored]> slot) rest
      | Some _ => Raise (SystemExit chr pos ref alt)
      end
  end.

(** The body of the loop of [main] over the variants. *)
Definition index_variant (csq_fields : option (list string))
    (vep : allele_index) (v : variant) : result allele_index :=
  let chr := CHROM v in
  let pos := pretty (POS v) in
  let ref := REF v in
  let alts := ALT v in
  let slot := slot_at vep chr pos ref in
  match INFO_CSQ v with
  | Some csq =>
      transcripts ← parse_csq_entries (split "," csq) csq_fields;
      alleles_dict ← resolve_alleles v (dom transcripts);
      slot ← store_alts transcripts alleles_dict chr pos ref slot alts;
      mret (with_slot vep chr pos ref slot)
  | None =>
      mret (with_slot vep chr pos ref
              (foldl (fun slot alt => <[alt := None]> slot) slot alts))
  end.

Fixpoint build_index (csq_fields : option (list string))
    (vep : allele_index) (variants : list variant) : result allele_index :=
  match variants with
  | [] => mret vep
  | v :: rest =>
      vep ← index_variant csq_fields vep v;
      build_index csq_fields vep rest
  end.

(** ** Streaming the report *)

(** A row of [csv.DictReader]: column name to value. *)
Abbreviation row := (gmap string string).

(** The body of the loop over [entry['ALT'].split(',')]: the value collected
    for one ALT. *)
Definition collect (vep : allele_index) (entry : row) (field alt : string)
  : result string :=
  chrom ← getitem entry "CHROM";
  by_pos ← getitem vep chrom;
  pos ← getitem entry "POS";
  by_ref ← getitem by_pos pos;
  ref ← getitem entry "REF";
  slot ← getitem by_ref ref;
  vep_annotations ← getitem slot alt;
  match vep_annotations with
  | Some transcript =>
      match transcript !! field with
      | Some annotation => decode_annotation annotation
      | None => mret "-"
      end
  | None => mret "-"
  end.

Fixpoint collect_all (vep : allele_index) (entry : row) (field : string)
    (alts : list string) : result (list string) :=
  match alts with
  | [] => mret []
  | alt :: rest =>
      x ← collect vep entry field alt;
      xs ← collect_all vep entry field rest;
      mret (x :: xs)
  end.

(** The body of the loop over [args.vep_fields].  [row] and [entry] are one
    dict, so the columns read here are those of the row as the earlier fields
    left it. *)
Definition annotate_field (vep : allele_index) (entry : row) (field : string)
  : result row :=
  alt_column ← getitem entry "ALT";
  field_annotations ← collect_all vep entry field (split "," alt_column);
  mret (<[field := join "," field_annotations]> entry).

Fixpoint annotate_row (vep : allele_index) (entry : row) (vep_fields : list string)
  : result row :=
  match vep_fields with
  | [] => mret entry
  | field :: rest =>
      entry ← annotate_field vep entry field;
      annotate_row vep entry rest
  end.

(** ** The run *)

(** How a run ends, and what it has written by then.  The output file is
    opened, and its header line written, only once index construction is
    over. *)
Inductive outcome : Type :=
  | Abort_header (e : exn)
  | Abort_index (e : exn)
  | Abort_report (columns : list string) (written : list row) (e : exn)
  | Complete (columns : list string) (written : list row).

Fixpoint stream_report (vep : allele_index) (vep_fields columns : list string)
    (written : list row) (entries : list row) : outcome :=
  match entries with
  | [] => Complete columns written
  | entry :: rest =>
      match annotate_row vep entry vep_fields with
      | Return r => stream_report vep vep_fields columns (written ++ [r]) rest
      | Raise e => Abort_report columns written e
      end
  end.

(** [main], on the header entries and the variants of [input_vcf], the
    columns and the rows of [input_tsv], and [vep_fields]. *)
Definition main (header : list header_info) (variants : list variant)
    (fieldnames : list string) (entries : list row) (vep_fields : list string)
  : outcome :=
  match parse_csq_header header with
  | Raise e => Abort_header e
  | Return csq_fields =>
      match build_index csq_fields ∅ variants with
      | Raise e => Abort_index e
      | Return vep =>
          stream_report vep vep_fields (fieldnames ++ vep_fields) [] entries
      end
  end.

(** ** The output file *)

(** The text before and the text after the last occurrence of [sep] in [s],
    when there is one. *)
Fixpoint rsplit_at (sep s : string) : option (string * string) :=
  match s with
  | "" =>
      match strip_prefix sep "" with
      | Some tail => Some ("", tail)
      | None => None
      end
  | String c t =>
      match rsplit_at sep t with
      | Some (head, tail) => Some (String c head, tail)
      | None =>
          match strip_prefix sep s with
          | Some tail => Some ("", tail)
          | None => None
          end
      end
  end.

(** [s.rpartition(sep)]: two empty strings and [s] when [sep] is not found. *)
Definition rpartition (sep s : string) : string * string * string :=
  match rsplit_at sep s with
  | Some (head, tail) => (head, sep, tail)
  | None => ("", "", s)
  end.

(** The path [main] opens for writing.  [output_tsv] is [args.output_tsv]:
    [None] when the option is not given; [None] and the empty string are both
    false for [if args.output_tsv]. *)
Definition output_file (output_tsv : option string) (input_vcf : string) : string :=
  match output_tsv with
  | Some (String c path) => String c path
  | _ =>
      let '(head, _, _) := rpartition ".vcf" input_vcf in
      head ++ ".tsv"
  end.

(** * Specification-level definitions and example data *)

Definition indel_insertion : variant :=
  {| CHROM := "1"; POS := 100; REF := "A"; ALT := ["AT"];
     is_indel := true; is_sv := false; INFO_CSQ := Some "T|GENE1|1" |}.

Definition indel_deletion : variant :=
  {| CHROM := "1"; POS := 200; REF := "AT"; ALT := ["A"];
     is_indel := true; is_sv := false; INFO_CSQ := Some "-|GENE1|1" |}.

Definition indel_replacement : variant :=
  {| CHROM := "1"; POS := 200; REF := "AT"; ALT := ["T"];
     is_indel := true; is_sv := false; INFO_CSQ := Some "T|GENE1|1" |}.

(** The token the structural-variant rule gives one ALT, in the order the
    rule is worded: ['insertion'], then ['deletion'], then the sole member of
    the token set, else none. *)
Definition sv_token (ref : string) (csq_alleles : gset string) (alt : string)
  : option string :=
  if decide ("insertion" ∈ csq_alleles /\ String.length ref < String.length alt)
  then Some "insertion"
  else if decide ("deletion" ∈ csq_alleles /\ String.length alt < String.length ref)
  then Some "deletion"
  else if decide (size csq_alleles = 1) then head (elements csq_alleles)
  else None.

Definition sv_deletion : variant :=
  {| CHROM := "1"; POS := 300; REF := "ACGT"; ALT := ["A"];
     is_indel := false; is_sv := true; INFO_CSQ := Some "deletion|GENE1|1" |}.

(** The end-to-end scenario: one header entry, one variant, one report row. *)
Definition csq_header_example : list header_info :=
  [ {[ "ID" := "CSQ";
       "Description" :=
         String quote ("Consequence annotations from Ensembl VEP. "
                       ++ "Format: Allele|Gene|PICK" ++ String quote "") ]} ].

Definition snv_example : variant :=
  {| CHROM := "1"; POS := 100; REF := "A"; ALT := ["T"];
     is_indel := false; is_sv := false;
     INFO_CSQ := Some "T|GENE1|1,T|GENE2|0" |}.

Definition row_example : row :=
  {[ "CHROM" := "1"; "POS" := "100"; "REF" := "A"; "ALT" := "T" ]}.

Definition report_columns : list string := ["CHROM"; "POS"; "REF"; "ALT"].

Definition group_example : list record :=
  [ {[ "Gene" := "GENE2"; "PICK" := "0" ]};
    {[ "Gene" := "GENE1"; "PICK" := "1" ]} ].

(** The record [parse_csq_entries] builds for one entry. *)
Definition record_of (csq_fields : list string) (entry : string) : record :=
  fill_record ∅ csq_fields (split "|" entry).

(** The entry has a value at a position where the schema says ['Allele']. *)
Definition supplies_allele (csq_fields : list string) (entry : string) : Prop :=
  exists i, csq_fields !! i = Some "Allele" /\ i < length (split "|" entry).

(** What the index holds for (CHROM, POS, REF, ALT): [None] when the key was
    never written, [Some None] for the absent-marker, [Some (Some t)] for a
    record. *)
Definition stored (vep : allele_index) (chrom pos ref alt : string)
  : option (option record) :=
  by_pos ← vep !! chrom;
  by_ref ← by_pos !! pos;
  slot ← by_ref !! ref;
  slot !! alt.

Definition snv_without_csq : variant :=
  {| CHROM := "1"; POS := 100; REF := "A"; ALT := ["T"];
     is_indel := false; is_sv := false; INFO_CSQ := None |}.

(** The column value made of one ['-'] per ALT. *)
Definition dashes (alt_column : string) : string :=
  join "," (replicate (length (split "," alt_column)) "-").

Definition header_without_format : header_info :=
  {[ "ID" := "CSQ";
     "Description" := String quote ("Consequence annotations" ++ String quote "") ]}.

(** An uppercase hexadecimal digit. *)
Definition upper_hex (c : ascii) : bool :=
  let n := N_of_ascii c in
  ((48 <=? n) && (n <=? 57) || (65 <=? n) && (n <=? 70))%N.

(** A hexadecimal digit of either case, as the words of the contract have it. *)
Definition hex_digit (c : ascii) : bool :=
  let n := N_of_ascii c in
  ((48 <=? n) && (n <=? 57) || (65 <=? n) && (n <=? 70)
   || (97 <=? n) && (n <=? 102))%N.

(** The text ['%ab' + rest]. *)
Definition percent (a b : ascii) (rest : string) : string :=
  String "%" (String a (String b rest)).

(** The byte two hexadecimal digits stand for. *)
Definition byte_of (a b : ascii) : N :=
  (16 * default 0 (hex_value a) + default 0 (hex_value b))%N.

(** Every match of the pattern in [s] is a percent sign followed by two
    uppercase hexadecimal digits that stand for a byte below 128. *)
Definition well_encoded (s : string) : Prop :=
  forall pre a b post,
    s = pre ++ percent a b post -> in_class a = true -> in_class b = true ->
    upper_hex a = true /\ upper_hex b = true /\ (byte_of a b < 128)%N.

(** [c] occurs in [s]. *)
Fixpoint occurs (c : ascii) (s : string) : bool :=
  match s with
  | "" => false
  | String x t => bool_decide (x = c) || occurs c t
  end.

(** The description holds the marker, then some text without a newline, then
    a quote. *)
Definition has_format (description : string) : Prop :=
  exists pre g post,
    description = pre ++ "Format: " ++ g ++ String quote post /\
    occurs newline g = false.

(** The token [resolve_alleles] gives an ALT of a variant that is an indel or
    is not a structural variant. *)
Definition token_of (v : variant) (alt : string) : string :=
  if is_indel v then indel_allele (REF v) alt else alt.

(** The record [transcript_for_alt] takes from a group. *)
Definition select_transcript (group : list record) : option record :=
  match first_picked group with
  | Some t => Some t
  | None => head group
  end.

(** A written row, against the report row it comes from: every column that
    is not a requested field holds what the report row holds, and every
    requested field holds a value. *)
Definition row_kept (vep_fields : list string) (entry r : row) : Prop :=
  (forall column, column ∉ vep_fields -> r !! column = entry !! column) /\
  (forall field, field ∈ vep_fields -> is_Some (r !! field)).

(** * Properties *)

(** ** The result monad *)

Lemma bind_Return {A B} (f : A -> result B) (a : A) : Return a ≫= f = f a.
Proof. reflexivity. Qed.

Lemma bind_Raise {A B} (f : A -> result B) (e : exn) : Raise e ≫= f = Raise e.
Proof. reflexivity. Qed.

Lemma bind_returns {A B} (f : A -> result B) (m : result A) (b : B) :
  m ≫= f = Return b -> exists a, m = Return a /\ f a = Return b.
Proof. destruct m as [a|e]; [eauto | discriminate]. Qed.

Lemma getitem_Some {V} (d : gmap string V) k v : d !! k = Some v -> getitem d k = Return v.
Proof. unfold getitem. by intros ->. Qed.

Lemma getitem_None {V} (d : gmap string V) k : d !! k = None -> getitem d k = Raise (KeyError k).
Proof. unfold getitem. by intros ->. Qed.

(** A dict filled by a loop [for a in l: d[a] = f(a)]. *)
Lemma lookup_foldl_insert {V} (f : string -> V) (l : list string)
    (d : gmap string V) (k : string) :
  foldl (fun d a => <[a := f a]> d) d l !! k =
  if decide (k ∈ l) then Some (f k) else d !! k.
Proof.
  revert d. induction l as [|a l IH]; intros d; simpl.
  - done.
  - rewrite IH. destruct (decide (k ∈ l)) as [Hin|Hin].
    + rewrite decide_True; [done | by right].
    + destruct (decide (k = a)) as [->|Hne].
      * rewrite lookup_insert_eq. rewrite decide_True; [done | by left].
      * rewrite lookup_insert_ne by done.
        rewrite decide_False; [done|]. intros [?|?]%elem_of_cons; done.
Qed.

(** ** Strings *)

Lemma append_String (c : ascii) (s t : string) :
  String c s ++ t = String c (s ++ t).
Proof. reflexivity. Qed.

Lemma append_empty (s : string) : "" ++ s = s.
Proof. reflexivity. Qed.

Lemma append_assoc (x y z : string) : (x ++ y) ++ z = x ++ (y ++ z).
Proof.
  induction x as [|c x IH]; [reflexivity|].
  change (String c ((x ++ y) ++ z) = String c (x ++ (y ++ z))). by f_equal.
Qed.

(** ** Allele resolution: indels *)

(** C1.  For a variant flagged as an indel, [resolve_alleles] returns a dict
    that maps every ALT of the variant to: the ALT itself when its first
    character differs from that of REF; else ['-'] when nothing is left of the
    ALT once its first character is removed; else the ALT without its first
    character.  An empty ALT or REF has the empty string as what its first
    character is compared by.  So REF ['A'], ALT ['AT'] gives ['T'], REF
    ['AT'], ALT ['A'] gives ['-'], and REF ['AT'], ALT ['T'] gives ['T']. *)
Theorem resolve_alleles_indel (entry : variant) (csq_alleles : gset string) :
  is_indel entry = true ->
  exists alleles,
    resolve_alleles entry csq_alleles = Return alleles /\
    forall alt, alt ∈ ALT entry ->
      (forall a rest r ref_rest,
          alt = String a rest -> REF entry = String r ref_rest -> a ≠ r ->
          alleles !! alt = Some alt) /\
      (forall a ref_rest,
          alt = String a "" -> REF entry = String a ref_rest ->
          alleles !! alt = Some "-") /\
      (forall a x rest ref_rest,
          alt = String a (String x rest) -> REF entry = String a ref_rest ->
          alleles !! alt = Some (String x rest)) /\
      (alt = "" -> REF entry ≠ "" -> alleles !! alt = Some "") /\
      (alt ≠ "" -> REF entry = "" -> alleles !! alt = Some alt) /\
      (alt = "" -> REF entry = "" -> alleles !! alt = Some "-").
Proof.
  intros Hindel. unfold resolve_alleles, resolve_alleles_in. rewrite Hindel.
  eexists; split; [reflexivity|].
  intros alt Halt. rewrite lookup_foldl_insert, decide_True by done.
  unfold indel_allele, slice01, slice1. repeat split.
  - intros a rest r ref_rest -> -> Hne.
    repeat case_decide; congruence.
  - intros a ref_rest -> ->. repeat case_decide; congruence.
  - intros a x rest ref_rest -> ->. repeat case_decide; congruence.
  - intros -> Href. destruct (REF entry) as [|r ref_rest]; [done|].
    repeat case_decide; congruence.
  - intros Halt' ->. destruct alt as [|a rest]; [done|].
    repeat case_decide; congruence.
  - intros -> ->. repeat case_decide; congruence.
Qed.

Lemma resolve_alleles_indel_witness :
  (exists alleles, resolve_alleles indel_insertion {["T"]} = Return alleles /\
                   alleles !! "AT" = Some "T") /\
  (exists alleles, resolve_alleles indel_deletion {["-"]} = Return alleles /\
                   alleles !! "A" = Some "-") /\
  (exists alleles, resolve_alleles indel_replacement {["T"]} = Return alleles /\
                   alleles !! "T" = Some "T").
Proof.
  split; [|split].
  - destruct (resolve_alleles_indel indel_insertion {["T"]} eq_refl)
      as (alleles & Hr & Hall).
    exists alleles. split; [exact Hr|].
    destruct (Hall "AT") as (_ & _ & H & _); [by left|].
    apply (H "A"%char "T"%char "" ""); reflexivity.
  - destruct (resolve_alleles_indel indel_deletion {["-"]} eq_refl)
      as (alleles & Hr & Hall).
    exists alleles. split; [exact Hr|].
    destruct (Hall "A") as (_ & H & _); [by left|].
    apply (H "A"%char "T"); reflexivity.
  - destruct (resolve_alleles_indel indel_replacement {["T"]} eq_refl)
      as (alleles & Hr & Hall).
    exists alleles. split; [exact Hr|].
    destruct (Hall "T") as (H & _); [by left|].
    apply (H "T"%char "" "A"%char "T"); [reflexivity | reflexivity | discriminate].
Defined.

(** ** Allele resolution: structural variants *)

Lemma sv_step_token ref csq_alleles alleles alt :
  sv_step ref csq_alleles alleles alt =
  Return (match sv_token ref csq_alleles alt with
          | Some token => <[alt := token]> alleles
          | None => alleles
          end).
Proof.
  unfold sv_step, sv_token.
  repeat case_bool_decide; simpl; repeat case_decide;
    try (exfalso; tauto); try done.
  all: match goal with H : size _ = 1 |- _ =>
         unfold size, set_size in H; simpl in H end.
  all: destruct (elements csq_alleles); [discriminate | done].
Qed.

(** Run over the variant's own ALT list, the loop of the structural-variant
    branch maps every ALT as the rule says. *)
Lemma sv_loop_tokens ref csq_alleles alts alleles :
  exists alleles',
    sv_loop ref csq_alleles alleles alts = Return alleles' /\
    forall alt, alleles' !! alt =
      if decide (alt ∈ alts)
      then match sv_token ref csq_alleles alt with
           | Some token => Some token
           | None => alleles !! alt
           end
      else alleles !! alt.
Proof.
  revert alleles. induction alts as [|a alts IH]; intros alleles; simpl.
  - eexists; split; [reflexivity | done].
  - rewrite sv_step_token, bind_Return.
    destruct (IH (match sv_token ref csq_alleles a with
                  | Some token => <[a := token]> alleles
                  | None => alleles
                  end)) as (alleles' & -> & Hl).
    eexists; split; [reflexivity|]. intros alt. rewrite Hl.
    destruct (decide (alt = a)) as [->|Hne].
    + rewrite (decide_True (P := a ∈ a :: alts)) by (by left).
      destruct (sv_token ref csq_alleles a) as [token|] eqn:Ht.
      * rewrite lookup_insert_eq. by case_decide.
      * by case_decide.
    + assert (alt ∈ a :: alts <-> alt ∈ alts) as Hiff.
      { rewrite elem_of_cons. tauto. }
      assert (forall o : option string,
                 match sv_token ref csq_alleles a with
                 | Some token => <[a := token]> alleles
                 | None => alleles
                 end !! alt = alleles !! alt) as Hsame.
      { intros _. destruct (sv_token ref csq_alleles a);
          [by rewrite lookup_insert_ne | done]. }
      rewrite (Hsame None).
      destruct (decide (alt ∈ alts)) as [Hin|Hin].
      * rewrite decide_True by tauto. done.
      * rewrite decide_False by tauto. done.
Qed.

Lemma resolve_alleles_sv_raises (entry : variant) (csq_alleles : gset string) :
  is_indel entry = false -> is_sv entry = true ->
  resolve_alleles entry csq_alleles = Raise (NameError "alts").
Proof.
  intros Hi Hs. unfold resolve_alleles, resolve_alleles_in.
  by rewrite Hi, Hs.
Qed.

(** C5.  On a structural variant with REF ['ACGT'], ALT ['A'] and the token
    set [{'deletion'}], the rule gives the ALT the token ['deletion'], and so
    does the loop of the branch when it runs over the variant's own ALT list;
    [resolve_alleles] itself raises [NameError], because that loop iterates
    over the unbound name [alts]. *)
Theorem resolve_alleles_sv_name_error :
  sv_token (REF sv_deletion) {["deletion"]} "A" = Some "deletion" /\
  (exists alleles,
     resolve_alleles_in (Some (ALT sv_deletion)) sv_deletion {["deletion"]}
       = Return alleles /\ alleles !! "A" = Some "deletion") /\
  resolve_alleles sv_deletion {["deletion"]} = Raise (NameError "alts").
Proof.
  split; [by vm_compute|]. split; [|reflexivity].
  eexists. split; [by vm_compute | by vm_compute].
Qed.

(** ** Transcript selection *)

Lemma picked_spec (transcript : record) :
  picked transcript = true <-> transcript !! "PICK" = Some "1".
Proof. unfold picked. apply bool_decide_eq_true. Qed.

Lemma first_picked_Some (group : list record) (t : record) :
  first_picked group = Some t ->
  exists before after,
    group = (before ++ t :: after)%list /\ picked t = true /\
    Forall (fun r => picked r = false) before.
Proof.
  induction group as [|r group IH]; simpl; [discriminate|].
  destruct (picked r) eqn:Hr.
  - intros [= ->]. exists [], group. by repeat split.
  - intros (before & after & -> & Ht & Hb)%IH.
    exists (r :: before), after. repeat split; [done | by constructor].
Qed.

Lemma first_picked_None (group : list record) :
  first_picked group = None -> Forall (fun r => picked r = false) group.
Proof.
  induction group as [|r group IH]; simpl; [by constructor|].
  destruct (picked r) eqn:Hr; [discriminate|]. intros H. constructor; auto.
Qed.

Lemma transcript_for_alt_group (transcripts : gmap string (list record))
    (alt : string) (group : list record) :
  transcripts !! alt = Some group ->
  transcript_for_alt transcripts alt =
  match first_picked group with
  | Some t => Return t
  | None => getitem0 group
  end.
Proof.
  intros H. unfold transcript_for_alt.
  rewrite (getitem_Some _ _ _ H), bind_Return.
  by destruct (first_picked group).
Qed.

(** C6.  On a non-empty list of records stored under [alt],
    [transcript_for_alt] returns, without raising, the first record of the
    list whose ['PICK'] field is ['1'], and the first record of the list when
    no record has one.  In the end-to-end scenario (schema [Allele|Gene|PICK],
    annotation ['T|GENE1|1,T|GENE2|0']) the [Gene] column of the report row
    is ['GENE1']. *)
Theorem transcript_for_alt_first_pick :
  (forall (transcripts : gmap string (list record)) (alt : string)
          (group : list record),
     transcripts !! alt = Some group -> group ≠ [] ->
     exists t,
       transcript_for_alt transcripts alt = Return t /\
       ((t !! "PICK" = Some "1" /\
         exists before after,
           group = (before ++ t :: after)%list /\
           Forall (fun r => r !! "PICK" ≠ Some "1") before) \/
        (Forall (fun r => r !! "PICK" ≠ Some "1") group /\
         head group = Some t))) /\
  main csq_header_example [snv_example] report_columns [row_example] ["Gene"]
  = Complete (report_columns ++ ["Gene"]) [<["Gene" := "GENE1"]> row_example].
Proof.
  assert (forall l : list record,
             Forall (fun r => picked r = false) l ->
             Forall (fun r => r !! "PICK" ≠ Some "1") l) as Hnot.
  { intros l Hl. eapply Forall_impl; [exact Hl|].
    intros r Hr Hp%picked_spec. congruence. }
  split; [|by vm_compute].
  intros transcripts alt group Hg Hne.
  rewrite (transcript_for_alt_group _ _ _ Hg).
  destruct (first_picked group) as [t|] eqn:Hf.
  - exists t. split; [done|]. left.
    apply first_picked_Some in Hf as (before & after & -> & Ht & Hb).
    split; [by apply picked_spec|]. exists before, after. auto.
  - destruct group as [|t group]; [done|].
    exists t. split; [done|]. right.
    split; [|done]. by apply Hnot, first_picked_None.
Qed.

Lemma transcript_for_alt_first_pick_witness :
  exists t,
    transcript_for_alt {[ "T" := group_example ]} "T" = Return t /\
    t !! "Gene" = Some "GENE1".
Proof.
  assert (({[ "T" := group_example ]} : gmap string (list record)) !! "T"
          = Some group_example) as Hg by reflexivity.
  assert (group_example ≠ []) as Hne by discriminate.
  destruct (proj1 transcript_for_alt_first_pick _ _ _ Hg Hne) as (t & Ht & _).
  exists t. split; [exact Ht|].
  vm_compute in Ht. injection Ht as <-. reflexivity.
Defined.

(** ** The block parser *)

Lemma fill_record_is_Some (fields values : list string) (m : record) (k : string) :
  is_Some (fill_record m fields values !! k) <->
  is_Some (m !! k) \/ exists i, fields !! i = Some k /\ i < length values.
Proof.
  revert values m. induction fields as [|f fields IH]; intros values m; simpl.
  - split; [auto|]. intros [H|(i & Hi & _)]; [done|]. by destruct i.
  - destruct values as [|v values]; simpl.
    + split; [auto|]. intros [H|(i & _ & Hi)]; [done | lia].
    + rewrite IH. split.
      * intros [H|(i & Hi & Hlt)].
        -- destruct (decide (f = k)) as [->|Hne].
           ++ right. exists 0. split; [done | lia].
           ++ left. by rewrite lookup_insert_ne in H.
        -- right. exists (S i). split; [done | lia].
      * intros [H|(i & Hi & Hlt)].
        -- left. destruct (decide (f = k)) as [->|Hne].
           ++ rewrite lookup_insert_eq. eauto.
           ++ by rewrite lookup_insert_ne.
        -- destruct i as [|i]; simpl in Hi.
           ++ injection Hi as ->. left. rewrite lookup_insert_eq. eauto.
           ++ right. exists i. split; [done | lia].
Qed.

Lemma fill_record_absent (fields values : list string) (m : record) (k : string) :
  (forall j, j < length values -> fields !! j ≠ Some k) ->
  fill_record m fields values !! k = m !! k.
Proof.
  revert values m. induction fields as [|f fields IH]; intros values m H; simpl.
  - done.
  - destruct values as [|v values]; [done|]. simpl in H.
    rewrite IH.
    + apply lookup_insert_ne. intros ->. apply (H 0); [lia | done].
    + intros j Hj. apply (H (S j)). lia.
Qed.

Lemma fill_record_value (fields values : list string) (m : record)
    (i : nat) (k v : string) :
  fields !! i = Some k -> values !! i = Some v ->
  (forall j, i < j -> j < length values -> fields !! j ≠ Some k) ->
  fill_record m fields values !! k = Some v.
Proof.
  revert values m i. induction fields as [|f fields IH]; intros values m i Hf Hv Hlast.
  - by destruct i.
  - destruct values as [|v0 values]; [by destruct i|]. simpl.
    destruct i as [|i]; simpl in Hf, Hv.
    + injection Hf as ->. injection Hv as ->.
      rewrite fill_record_absent; [apply lookup_insert_eq|].
      intros j Hj. apply (Hlast (S j)); simpl; lia.
    + apply (IH values _ i); [done..|].
      intros j Hij Hj. apply (Hlast (S j)); simpl; lia.
Qed.

Lemma record_of_allele (fields : list string) (entry : string) :
  is_Some (record_of fields entry !! "Allele") <-> supplies_allele fields entry.
Proof.
  unfold record_of, supplies_allele. rewrite fill_record_is_Some.
  rewrite lookup_empty. split; [|auto]. intros [[? H]|H]; [discriminate | done].
Qed.

Lemma add_entry_spec (fields : list string)
    (transcripts : gmap string (list record)) (entry : string) :
  add_entry fields transcripts entry =
  match record_of fields entry !! "Allele" with
  | Some allele =>
      Return (<[allele := (default [] (transcripts !! allele)
                           ++ [record_of fields entry])%list]> transcripts)
  | None => Raise (KeyError "Allele")
  end.
Proof.
  unfold add_entry, getitem. fold (record_of fields entry).
  destruct (record_of fields entry !! "Allele") as [allele|]; simpl; [|done].
  destruct (transcripts !! allele) as [group|] eqn:Hg; simpl.
  - by rewrite Hg.
  - rewrite lookup_insert_eq. simpl. by rewrite insert_insert_eq.
Qed.

Lemma parse_entries_from_raise (fields : list string) (entries : list string)
    (transcripts : gmap string (list record)) :
  ¬ Forall (supplies_allele fields) entries ->
  parse_entries_from fields transcripts entries = Raise (KeyError "Allele").
Proof.
  revert transcripts.
  induction entries as [|entry entries IH]; intros transcripts Hn; simpl.
  - destruct Hn. constructor.
  - rewrite add_entry_spec.
    destruct (record_of fields entry !! "Allele") as [allele|] eqn:Ha; [|done].
    rewrite bind_Return. apply IH. intros Hall. apply Hn. constructor; [|done].
    apply record_of_allele. eauto.
Qed.

Lemma parse_entries_from_groups (fields : list string) (entries : list string)
    (transcripts : gmap string (list record)) :
  Forall (supplies_allele fields) entries ->
  exists transcripts',
    parse_entries_from fields transcripts entries = Return transcripts' /\
    forall allele,
      transcripts' !! allele =
      match filter (fun r => r !! "Allele" = Some allele)
                   (record_of fields <$> entries) with
      | [] => transcripts !! allele
      | g => Some (default [] (transcripts !! allele) ++ g)%list
      end.
Proof.
  revert transcripts.
  induction entries as [|entry entries IH]; intros transcripts Hall; simpl.
  - eexists; split; [reflexivity | done].
  - apply Forall_cons in Hall as [He Hall].
    apply record_of_allele in He as [a0 Ha0].
    rewrite add_entry_spec, Ha0, bind_Return.
    destruct (IH (<[a0 := (default [] (transcripts !! a0)
                           ++ [record_of fields entry])%list]> transcripts) Hall)
      as (transcripts' & -> & Hl).
    eexists; split; [reflexivity|]. intros allele. rewrite Hl.
    rewrite ?fmap_cons, filter_cons.
    destruct (decide (allele = a0)) as [->|Hne].
    + rewrite decide_True by done. rewrite lookup_insert_eq. simpl.
      destruct (filter _ _) as [|r g]; [done|].
      by rewrite <- app_assoc.
    + rewrite decide_False by congruence.
      by rewrite lookup_insert_ne.
Qed.

Lemma parse_entries_from_nonempty (fields : list string) (entries : list string)
    (transcripts transcripts' : gmap string (list record)) :
  parse_entries_from fields transcripts entries = Return transcripts' ->
  (forall allele group, transcripts !! allele = Some group -> group ≠ []) ->
  forall allele group, transcripts' !! allele = Some group -> group ≠ [].
Proof.
  revert transcripts.
  induction entries as [|entry entries IH]; intros transcripts Hp Hinv; simpl in Hp.
  - by injection Hp as <-.
  - apply bind_returns in Hp as (t1 & Hadd & Hp).
    apply (IH _ Hp). rewrite add_entry_spec in Hadd.
    destruct (record_of fields entry !! "Allele") as [a0|]; [|discriminate].
    injection Hadd as <-. intros allele group.
    destruct (decide (allele = a0)) as [->|Hne].
    + rewrite lookup_insert_eq. intros [= <-].
      by destruct (default [] (transcripts !! a0)).
    + rewrite lookup_insert_ne by done. apply Hinv.
Qed.

Lemma parse_entries_from_returns (fields : list string) (entries : list string)
    (transcripts transcripts' : gmap string (list record)) :
  parse_entries_from fields transcripts entries = Return transcripts' ->
  Forall (supplies_allele fields) entries.
Proof.
  revert transcripts.
  induction entries as [|entry entries IH]; intros transcripts Hp; simpl in Hp.
  - constructor.
  - apply bind_returns in Hp as (t1 & Hadd & Hp).
    rewrite add_entry_spec in Hadd.
    destruct (record_of fields entry !! "Allele") as [a0|] eqn:Ha; [|discriminate].
    constructor; [apply record_of_allele; eauto | by eapply IH].
Qed.

(** C7, as the code has it.  When every comma-separated entry of the
    annotation value has a value at a position where the schema says
    ['Allele'], [parse_csq_entries] returns a mapping in which the group of an
    allele is the list, in entry order, of the records whose ['Allele'] value
    is that allele, and an allele without such a record has no group.  The
    record of an entry pairs the schema's names with the entry's
    pipe-separated values by position: it has exactly the names that have a
    value at their position, so the trailing names of a short entry are
    missing, and a name holds the value at its position (at its last such
    position when the schema repeats it). *)
Theorem parse_csq_entries_groups (csq : string) (csq_fields : list string) :
  Forall (supplies_allele csq_fields) (split "," csq) ->
  exists transcripts,
    parse_csq_entries (split "," csq) (Some csq_fields) = Return transcripts /\
    (forall allele group,
        transcripts !! allele = Some group <->
        group ≠ [] /\
        group = filter (fun r => r !! "Allele" = Some allele)
                       (record_of csq_fields <$> split "," csq)) /\
    (forall entry,
        (forall key,
            is_Some (record_of csq_fields entry !! key) <->
            exists i, csq_fields !! i = Some key /\ i < length (split "|" entry)) /\
        (forall i key value,
            csq_fields !! i = Some key -> split "|" entry !! i = Some value ->
            (forall j, i < j -> j < length (split "|" entry) ->
                       csq_fields !! j ≠ Some key) ->
            record_of csq_fields entry !! key = Some value)).
Proof.
  intros Hall. unfold parse_csq_entries.
  destruct (parse_entries_from_groups csq_fields (split "," csq) ∅ Hall)
    as (transcripts & Hp & Hl).
  exists transcripts. split; [done|]. split.
  - intros allele group. rewrite Hl, lookup_empty. simpl.
    destruct (filter _ _) as [|r g] eqn:Hf.
    + split; [discriminate|]. intros [Hne ->]. done.
    + split; [intros [= <-]; split; [discriminate | done]|].
      intros [_ ->]. done.
  - intros entry. split.
    + intros key. unfold record_of. rewrite fill_record_is_Some, lookup_empty.
      split; [|auto]. intros [[? H]|H]; [discriminate | done].
    + intros i key value. apply fill_record_value.
Qed.

Lemma parse_csq_entries_groups_witness :
  exists transcripts,
    parse_csq_entries (split "," "T|GENE1|1,T|GENE2|0,C|GENE3")
                      (Some ["Allele"; "Gene"; "PICK"]) = Return transcripts /\
    transcripts !! "T" =
      Some [ {[ "Allele" := "T"; "Gene" := "GENE1"; "PICK" := "1" ]};
             {[ "Allele" := "T"; "Gene" := "GENE2"; "PICK" := "0" ]} ] /\
    transcripts !! "C" = Some [ {[ "Allele" := "C"; "Gene" := "GENE3" ]} ].
Proof.
  assert (Forall (supplies_allele ["Allele"; "Gene"; "PICK"])
                 (split "," "T|GENE1|1,T|GENE2|0,C|GENE3")) as Hall.
  { repeat constructor; exists 0; (split; [reflexivity | simpl; lia]). }
  destruct (parse_csq_entries_groups "T|GENE1|1,T|GENE2|0,C|GENE3"
              ["Allele"; "Gene"; "PICK"] Hall) as (transcripts & Hp & _).
  exists transcripts. split; [exact Hp|].
  vm_compute in Hp. injection Hp as <-. split; reflexivity.
Defined.

(** The parenthesis of C7 fails when the values end before the ['Allele']
    position: no record is produced, the parser raises. *)
Lemma parse_csq_entries_short_entry_raises :
  length (split "|" "GENE1") < length ["Gene"; "Allele"] /\
  parse_csq_entries (split "," "GENE1") (Some ["Gene"; "Allele"])
  = Raise (KeyError "Allele").
Proof. split; [simpl; lia | reflexivity]. Qed.

(** ** Groups are never empty *)

(** C9.  Every group of a mapping returned by [parse_csq_entries] is a
    non-empty list, and [transcript_for_alt] returns a record for every
    allele that has a group in it. *)
Theorem parse_csq_entries_groups_nonempty (csq_entries : list string)
    (csq_fields : option (list string))
    (transcripts : gmap string (list record)) (allele : string) :
  parse_csq_entries csq_entries csq_fields = Return transcripts ->
  is_Some (transcripts !! allele) ->
  (exists group, transcripts !! allele = Some group /\ group ≠ []) /\
  returns (transcript_for_alt transcripts allele).
Proof.
  intros Hp [group Hg].
  assert (group ≠ []) as Hne.
  { destruct csq_fields as [fields|]; simpl in Hp.
    - eapply (parse_entries_from_nonempty _ _ _ _ Hp); [|exact Hg].
      intros a g. by rewrite lookup_empty.
    - destruct csq_entries; [|discriminate]. injection Hp as <-.
      by rewrite lookup_empty in Hg. }
  split; [eauto|].
  rewrite (transcript_for_alt_group _ _ _ Hg). unfold returns.
  destruct (first_picked group); [eauto|].
  destruct group; [done | simpl; eauto].
Qed.

Lemma parse_csq_entries_groups_nonempty_witness :
  returns (transcript_for_alt
             (<["T" := [record_of ["Allele"; "Gene"] "T|GENE1"]]> ∅) "T").
Proof.
  apply (parse_csq_entries_groups_nonempty
           ["T|GENE1"] (Some ["Allele"; "Gene"])
           (<["T" := [record_of ["Allele"; "Gene"] "T|GENE1"]]> ∅) "T").
  - vm_compute. reflexivity.
  - vm_compute. eauto.
Defined.

(** ** When the block parser returns *)

(** C10.  [parse_csq_entries] returns exactly when every entry has a value at
    a position where the schema says ['Allele'], and raises [KeyError] on
    ['Allele'] otherwise.  An entry that lacks trailing values is accepted
    (['T|GENE1'] under [Allele|Gene|PICK]); one whose values end before the
    ['Allele'] position is not (['GENE1'] under [Gene|Allele|PICK]). *)
Theorem parse_csq_entries_returns_iff :
  (forall (csq_entries csq_fields : list string),
      returns (parse_csq_entries csq_entries (Some csq_fields)) <->
      Forall (supplies_allele csq_fields) csq_entries) /\
  (forall (csq_entries csq_fields : list string),
      ¬ Forall (supplies_allele csq_fields) csq_entries ->
      parse_csq_entries csq_entries (Some csq_fields) = Raise (KeyError "Allele")) /\
  returns (parse_csq_entries ["T|GENE1"] (Some ["Allele"; "Gene"; "PICK"])) /\
  parse_csq_entries ["GENE1"] (Some ["Gene"; "Allele"; "PICK"])
  = Raise (KeyError "Allele").
Proof.
  split; [|split; [|split]].
  - intros entries fields. simpl. split.
    + intros [t Ht]. by apply parse_entries_from_returns in Ht.
    + intros Hall.
      destruct (parse_entries_from_groups fields entries ∅ Hall) as (t & Ht & _).
      by exists t.
  - intros entries fields. apply parse_entries_from_raise.
  - eexists. vm_compute. reflexivity.
  - reflexivity.
Qed.

(** ** The allele index *)

Lemma stored_with_slot (vep : allele_index) (chr pos ref alt : string)
    (slot : alt_slot) :
  stored (with_slot vep chr pos ref slot) chr pos ref alt = slot !! alt.
Proof.
  unfold stored, with_slot. rewrite lookup_insert_eq. simpl.
  rewrite lookup_insert_eq. simpl. by rewrite lookup_insert_eq.
Qed.

Lemma stored_slot_at (vep : allele_index) (chr pos ref alt : string) :
  slot_at vep chr pos ref !! alt = stored vep chr pos ref alt.
Proof.
  unfold stored, slot_at, level.
  destruct (vep !! chr) as [by_pos|]; simpl; [|done].
  destruct (by_pos !! pos) as [by_ref|]; simpl; [|done].
  by destruct (by_ref !! ref).
Qed.

(** A variant without a CSQ value is indexed without any check: each of its
    ALTs gets the absent-marker, whatever the index held for it. *)
Lemma index_variant_without_csq (csq_fields : option (list string))
    (vep : allele_index) (v : variant) :
  INFO_CSQ v = None ->
  exists vep',
    index_variant csq_fields vep v = Return vep' /\
    forall alt, alt ∈ ALT v ->
      stored vep' (CHROM v) (pretty (POS v)) (REF v) alt = Some None.
Proof.
  intros Hcsq. unfold index_variant. rewrite Hcsq.
  eexists; split; [reflexivity|]. intros alt Hin.
  rewrite stored_with_slot.
  rewrite (lookup_foldl_insert (fun _ => None)). by rewrite decide_True.
Qed.

(** A variant with a CSQ value is refused when the index already holds
    something, record or absent-marker, for its first ALT. *)
Lemma index_variant_with_csq_duplicate (csq_fields : list string)
    (vep : allele_index) (v : variant) (csq alt : string) (alts : list string) :
  INFO_CSQ v = Some csq -> ALT v = alt :: alts ->
  is_indel v = true \/ is_sv v = false ->
  Forall (supplies_allele csq_fields) (split "," csq) ->
  is_Some (stored vep (CHROM v) (pretty (POS v)) (REF v) alt) ->
  index_variant (Some csq_fields) vep v
  = Raise (SystemExit (CHROM v) (pretty (POS v)) (REF v) alt).
Proof.
  intros Hcsq Halt Hkind Hall [x Hx]. unfold index_variant. rewrite Hcsq.
  destruct (parse_entries_from_groups csq_fields (split "," csq) ∅ Hall)
    as (transcripts & Hp & _).
  unfold parse_csq_entries. rewrite Hp, bind_Return.
  assert (exists alleles, resolve_alleles v (dom transcripts) = Return alleles)
    as [alleles ->].
  { unfold resolve_alleles, resolve_alleles_in.
    destruct (is_indel v); [eauto|]. destruct Hkind as [Hk|Hk]; [done|].
    rewrite Hk. eauto. }
  rewrite bind_Return, Halt. simpl.
  by rewrite stored_slot_at, Hx.
Qed.

(** C2.  Two records for CHROM 1, POS 100, REF A, ALT T that both carry a CSQ
    value abort the run with [sys.exit] during index construction.  When the
    second record carries no CSQ value the run does not abort: the record
    stored for the first is replaced by the absent-marker and the report is
    written, with ['-'] for the row.  Two records without a CSQ value are
    not detected either. *)
Theorem duplicate_without_csq_not_detected :
  main csq_header_example [snv_example; snv_example]
       report_columns [row_example] ["Gene"]
  = Abort_index (SystemExit "1" "100" "A" "T") /\
  main csq_header_example [snv_example; snv_without_csq]
       report_columns [row_example] ["Gene"]
  = Complete (report_columns ++ ["Gene"]) [<["Gene" := "-"]> row_example] /\
  main csq_header_example [snv_without_csq; snv_without_csq]
       report_columns [row_example] ["Gene"]
  = Complete (report_columns ++ ["Gene"]) [<["Gene" := "-"]> row_example].
Proof. repeat split; by vm_compute. Qed.

(** ** Streaming the report *)

Lemma collect_stored (vep : allele_index) (entry : row)
    (field alt chrom pos ref : string) :
  entry !! "CHROM" = Some chrom -> entry !! "POS" = Some pos ->
  entry !! "REF" = Some ref ->
  match stored vep chrom pos ref alt with
  | Some (Some transcript) =>
      collect vep entry field alt =
      match transcript !! field with
      | Some annotation => decode_annotation annotation
      | None => Return "-"
      end
  | Some None => collect vep entry field alt = Return "-"
  | None => exists key, collect vep entry field alt = Raise (KeyError key)
  end.
Proof.
  intros Hc Hp Hr.
  assert (collect vep entry field alt =
          (by_pos ← getitem vep chrom;
           by_ref ← getitem by_pos pos;
           slot ← getitem by_ref ref;
           vep_annotations ← getitem slot alt;
           match vep_annotations with
           | Some transcript =>
               match transcript !! field with
               | Some annotation => decode_annotation annotation
               | None => Return "-"
               end
           | None => Return "-"
           end)) as ->.
  { unfold collect.
    by rewrite (getitem_Some _ _ _ Hc), (getitem_Some _ _ _ Hp),
      (getitem_Some _ _ _ Hr). }
  unfold stored, getitem.
  destruct (vep !! chrom) as [by_pos|]; simpl; [|eauto].
  destruct (by_pos !! pos) as [by_ref|]; simpl; [|eauto].
  destruct (by_ref !! ref) as [slot|]; simpl; [|eauto].
  destruct (slot !! alt) as [[transcript|]|]; simpl; eauto.
Qed.

Lemma collect_all_dashes (vep : allele_index) (entry : row) (field : string)
    (alts : list string) :
  Forall (fun alt => collect vep entry field alt = Return "-") alts ->
  collect_all vep entry field alts = Return (replicate (length alts) "-").
Proof.
  induction 1 as [|alt alts Halt _ IH]; simpl; [done|].
  by rewrite Halt, bind_Return, IH.
Qed.

Lemma collect_all_raises (vep : allele_index) (entry : row) (field : string)
    (alts : list string) :
  Exists (fun alt => exists e, collect vep entry field alt = Raise e) alts ->
  exists e, collect_all vep entry field alts = Raise e.
Proof.
  induction 1 as [alt alts [e He]|alt alts _ [e IH]]; simpl.
  - rewrite He. eauto.
  - destruct (collect vep entry field alt); [|eauto].
    rewrite bind_Return, IH. eauto.
Qed.

Lemma annotate_row_dashes (vep : allele_index) (vep_fields : list string)
    (entry : row) (chrom pos ref alt_column : string) :
  entry !! "CHROM" = Some chrom -> entry !! "POS" = Some pos ->
  entry !! "REF" = Some ref -> entry !! "ALT" = Some alt_column ->
  Forall (fun alt => stored vep chrom pos ref alt = Some None)
         (split "," alt_column) ->
  Forall (fun field => field ∉ ["CHROM"; "POS"; "REF"; "ALT"]) vep_fields ->
  annotate_row vep entry vep_fields =
  Return (foldl (fun r field => <[field := dashes alt_column]> r) entry vep_fields).
Proof.
  intros Hc Hp Hr Ha Hst Hf. revert entry Hc Hp Hr Ha.
  induction Hf as [|field vep_fields Hfield _ IH]; intros entry Hc Hp Hr Ha; simpl.
  - done.
  - unfold annotate_field. rewrite (getitem_Some _ _ _ Ha), bind_Return.
    rewrite collect_all_dashes, bind_Return.
    + apply IH; rewrite lookup_insert_ne; try done;
        intros Heq; apply Hfield; rewrite Heq; set_solver.
    + eapply Forall_impl; [exact Hst|]. intros alt Halt. simpl in Halt.
      pose proof (collect_stored vep entry field alt _ _ _ Hc Hp Hr) as H.
      by rewrite Halt in H.
Qed.

(** C3, as the code has it.  Take a report row with its CHROM, POS, REF and
    ALT columns.  The value collected for an ALT whose key was stored with the
    absent-marker is ['-'], for every field.  For an ALT whose key was never
    written to the index the lookup raises [KeyError], and so does the
    processing of the row when that ALT is in its ALT column.  A row all of
    whose ALTs were stored with the absent-marker is written with one ['-']
    per ALT, joined by commas, under every requested field, when no requested
    field is named CHROM, POS, REF or ALT. *)
Theorem stream_absent_marker (vep : allele_index) (entry : row)
    (chrom pos ref alt_column : string) :
  entry !! "CHROM" = Some chrom -> entry !! "POS" = Some pos ->
  entry !! "REF" = Some ref -> entry !! "ALT" = Some alt_column ->
  (forall field alt,
      stored vep chrom pos ref alt = Some None ->
      collect vep entry field alt = Return "-") /\
  (forall field alt,
      stored vep chrom pos ref alt = None ->
      (exists key, collect vep entry field alt = Raise (KeyError key)) /\
      (alt ∈ split "," alt_column ->
       exists e, annotate_field vep entry field = Raise e)) /\
  (Forall (fun alt => stored vep chrom pos ref alt = Some None)
          (split "," alt_column) ->
   forall vep_fields,
     Forall (fun field => field ∉ ["CHROM"; "POS"; "REF"; "ALT"]) vep_fields ->
     exists r,
       annotate_row vep entry vep_fields = Return r /\
       (forall field, field ∈ vep_fields -> r !! field = Some (dashes alt_column)) /\
       (forall column, column ∉ vep_fields -> r !! column = entry !! column)).
Proof.
  intros Hc Hp Hr Ha. split; [|split].
  - intros field alt Hst.
    pose proof (collect_stored vep entry field alt _ _ _ Hc Hp Hr) as H.
    by rewrite Hst in H.
  - intros field alt Hst.
    pose proof (collect_stored vep entry field alt _ _ _ Hc Hp Hr) as H.
    rewrite Hst in H. split; [done|]. intros Hin.
    unfold annotate_field. rewrite (getitem_Some _ _ _ Ha), bind_Return.
    destruct (collect_all_raises vep entry field (split "," alt_column)) as [e He].
    + apply Exists_exists. exists alt. split; [done|].
      destruct H as [key Hk]. eauto.
    + rewrite He. eauto.
  - intros Hst vep_fields Hf.
    eexists. split; [by eapply annotate_row_dashes|]. split.
    + intros field Hin.
      rewrite (lookup_foldl_insert (fun _ => dashes alt_column)).
      by rewrite decide_True.
    + intros column Hnin.
      rewrite (lookup_foldl_insert (fun _ => dashes alt_column)).
      by rewrite decide_False.
Qed.

Lemma stream_absent_marker_witness :
  exists vep r,
    build_index None ∅ [snv_without_csq] = Return vep /\
    annotate_row vep row_example ["Gene"; "Consequence"] = Return r /\
    r !! "Gene" = Some "-" /\ r !! "Consequence" = Some "-".
Proof.
  destruct (index_variant_without_csq None ∅ snv_without_csq eq_refl)
    as (vep & Hvep & Hst).
  assert (Forall (fun alt => stored vep "1" "100" "A" alt = Some None)
                 (split "," "T")) as Hall.
  { repeat constructor. apply (Hst "T"). by left. }
  assert (Forall (fun field => field ∉ ["CHROM"; "POS"; "REF"; "ALT"])
                 ["Gene"; "Consequence"]) as Hf.
  { repeat constructor; apply (bool_decide_unpack _); vm_compute; exact I. }
  destruct (stream_absent_marker vep row_example "1" "100" "A" "T"
              eq_refl eq_refl eq_refl eq_refl) as (_ & _ & Hrow).
  destruct (Hrow Hall _ Hf) as (r & Hr & Hd & _).
  exists vep, r.
  split; [cbn [build_index]; rewrite Hvep; reflexivity|]. split; [exact Hr|].
  split; apply Hd; set_solver.
Defined.

(** A report row whose key was never written to the index aborts the run:
    the output holds the header line and no row. *)
Lemma stream_unseen_key_raises :
  main csq_header_example [] report_columns [row_example] ["Gene"]
  = Abort_report (report_columns ++ ["Gene"]) [] (KeyError "1").
Proof. by vm_compute. Qed.

(** ** The pattern of the CSQ header *)

Lemma strip_prefix_append (p r : string) : strip_prefix p (p ++ r) = Some r.
Proof.
  induction p as [|c p IH]; [by destruct r|].
  rewrite append_String. cbn [strip_prefix]. by rewrite decide_True.
Qed.

Lemma strip_prefix_Some (p s r : string) :
  strip_prefix p s = Some r -> s = p ++ r.
Proof.
  revert s. induction p as [|c p IH]; intros s; simpl.
  - by intros [= ->].
  - destruct s as [|x s]; [done|]. case_decide as Hc; [|done].
    intros ->%IH. by rewrite Hc.
Qed.

Lemma line_of_append (g rest : string) :
  occurs newline g = false -> line_of (g ++ rest) = g ++ line_of rest.
Proof.
  induction g as [|c g IH]; [done|]. simpl occurs.
  intros [Hc Hg]%orb_false_iff. apply bool_decide_eq_false in Hc.
  rewrite !append_String. simpl. rewrite decide_False by done.
  by rewrite IH.
Qed.

Lemma line_of_prefix (s : string) :
  exists rest, s = line_of s ++ rest /\ occurs newline (line_of s) = false.
Proof.
  induction s as [|c s (rest & Hs & Ho)]; simpl.
  - by exists "".
  - case_decide as Hc.
    + by exists (String c s).
    + exists rest. rewrite append_String, <- Hs. split; [done|]. simpl.
      by rewrite bool_decide_eq_false_2.
Qed.

Lemma before_last_quote_append (g post : string) :
  is_Some (before_last_quote (g ++ String quote post)).
Proof.
  induction g as [|c g [x IH]].
  - rewrite append_empty. cbn [before_last_quote].
    destruct (before_last_quote post); [eauto|].
    rewrite decide_True by done. eauto.
  - rewrite append_String. cbn [before_last_quote]. rewrite IH. eauto.
Qed.

Lemma before_last_quote_Some (s g : string) :
  before_last_quote s = Some g ->
  exists post, s = g ++ String quote post /\ occurs quote post = false.
Proof.
  revert g. induction s as [|c s IH]; intros g; simpl; [done|].
  destruct (before_last_quote s) as [g'|] eqn:Hs.
  - intros [= <-]. destruct (IH g' eq_refl) as (post & -> & Hp).
    exists post. by rewrite append_String.
  - case_decide as Hc; [|done]. intros [= <-]. exists s. rewrite Hc.
    split; [done|]. clear IH. induction s as [|x s IHs]; [done|].
    simpl in Hs. destruct (before_last_quote s); [done|].
    case_decide as Hx; [done|]. simpl. rewrite bool_decide_eq_false_2 by done.
    by apply IHs.
Qed.

Lemma occurs_append (c : ascii) (s t : string) :
  occurs c (s ++ t) = occurs c s || occurs c t.
Proof.
  induction s as [|x s IH]; [done|].
  rewrite append_String. simpl. by rewrite IH, orb_assoc.
Qed.

Lemma format_search_here (description g : string) :
  format_match_here description = Some g -> format_search description = Some g.
Proof. intros H. destruct description; cbn [format_search]; by rewrite H. Qed.

(** The pattern finds a match exactly in the descriptions that hold the
    marker, followed on the same line by a quote; its group has no newline. *)
Lemma format_search_has_format (description : string) :
  is_Some (format_search description) <-> has_format description.
Proof.
  split.
  - induction description as [|c d IH]; simpl.
    + intros [? ?]. done.
    + destruct (format_match_here (String c d)) as [g|] eqn:Hm.
      * intros _. unfold format_match_here in Hm.
        destruct (strip_prefix "Format: " (String c d)) as [rest|] eqn:Hp;
          [|done]. simpl in Hm.
        apply strip_prefix_Some in Hp.
        apply before_last_quote_Some in Hm as (post & Hl & _).
        destruct (line_of_prefix rest) as (tail & Hrest & Ho).
        exists "", g, (post ++ tail). rewrite append_empty. split.
        -- rewrite Hp. f_equal. rewrite Hrest at 1. rewrite Hl.
           by rewrite append_assoc, append_String.
        -- rewrite Hl, occurs_append in Ho. by apply orb_false_iff in Ho as [? _].
      * intros (pre & g & post & -> & Ho)%IH.
        exists (String c pre), g, post. by rewrite append_String.
  - intros (pre & g & post & -> & Ho).
    induction pre as [|c pre IH].
    + rewrite append_empty.
      assert (is_Some (format_match_here
                         ("Format: " ++ g ++ String quote post))) as [x Hx].
      { unfold format_match_here. rewrite strip_prefix_append. simpl.
        rewrite line_of_append by done. simpl line_of.
        destruct (decide (quote = newline)) as [Hq|_]; [discriminate Hq|].
        apply before_last_quote_append. }
      rewrite (format_search_here _ _ Hx). eauto.
    + rewrite append_String. simpl.
      destruct (format_match_here _); [eauto | done].
Qed.

(** ** The CSQ header *)

Lemma split_nonempty (sep : ascii) (s : string) : split sep s ≠ [].
Proof.
  destruct s as [|c t]; simpl; [done|].
  case_decide; [done|]. by destruct (split sep t).
Qed.

Lemma parse_csq_header_skip (before rest : list header_info) :
  Forall (fun info => info !! "ID" ≠ Some "CSQ") before ->
  parse_csq_header (before ++ rest) = parse_csq_header rest.
Proof.
  induction 1 as [|info before Hinfo _ IH]; simpl; [done|].
  by rewrite bool_decide_eq_false_2.
Qed.

Lemma parse_csq_header_no_csq (header : list header_info) :
  Forall (fun info => info !! "ID" ≠ Some "CSQ") header ->
  parse_csq_header header = Return None.
Proof.
  intros H. rewrite <- (app_nil_r header). by rewrite parse_csq_header_skip.
Qed.

Lemma build_index_without_csq (csq_fields : option (list string))
    (variants : list variant) (vep : allele_index) :
  Forall (fun v => INFO_CSQ v = None) variants ->
  returns (build_index csq_fields vep variants).
Proof.
  intros H. revert vep. induction H as [|v variants Hv _ IH]; intros vep; simpl.
  - by eexists.
  - destruct (index_variant_without_csq csq_fields vep v Hv) as (vep' & -> & _).
    rewrite bind_Return. apply IH.
Qed.

Lemma build_index_no_schema (variants : list variant) (vep : allele_index) :
  Exists (fun v => INFO_CSQ v ≠ None) variants ->
  build_index None vep variants = Raise TypeError.
Proof.
  intros H. revert vep. induction H as [v variants Hv|v variants _ IH]; intros vep.
  - simpl. unfold index_variant.
    destruct (INFO_CSQ v) as [csq|]; [|done]. simpl.
    pose proof (split_nonempty "," csq). by destruct (split "," csq).
  - simpl. destruct (INFO_CSQ v) as [csq|] eqn:Hcsq.
    + unfold index_variant. rewrite Hcsq. simpl.
      pose proof (split_nonempty "," csq). by destruct (split "," csq).
    + destruct (index_variant_without_csq None vep v Hcsq) as (vep' & -> & _).
      rewrite bind_Return. apply IH.
Qed.

(** C8, as the code has it.  When the first header entry whose ID is CSQ has
    no description, or a description without the marker ['Format: '] followed
    on the same line by a quote, the run fails in [parse_csq_header], before
    any variant or report row is processed.  When no header entry has the ID CSQ, [parse_csq_header]
    returns [None] and nothing fails there: the run then fails with
    [TypeError] during index construction if some variant carries a CSQ
    value, and goes on to stream the report if none does. *)
Theorem missing_csq_header :
  (forall (before : list header_info) (info : header_info)
          (after : list header_info) (variants : list variant)
          (fieldnames : list string) (entries : list row)
          (vep_fields : list string),
      Forall (fun i => i !! "ID" ≠ Some "CSQ") before ->
      info !! "ID" = Some "CSQ" ->
      (info !! "Description" = None ->
       main (before ++ info :: after) variants fieldnames entries vep_fields
       = Abort_header (KeyError "Description")) /\
      (forall description,
          info !! "Description" = Some description ->
          ¬ has_format description ->
          main (before ++ info :: after) variants fieldnames entries vep_fields
          = Abort_header AttributeError)) /\
  (forall (header : list header_info) (variants : list variant)
          (fieldnames : list string) (entries : list row)
          (vep_fields : list string),
      Forall (fun i => i !! "ID" ≠ Some "CSQ") header ->
      parse_csq_header header = Return None /\
      (Exists (fun v => INFO_CSQ v ≠ None) variants ->
       main header variants fieldnames entries vep_fields
       = Abort_index TypeError) /\
      (Forall (fun v => INFO_CSQ v = None) variants ->
       exists vep,
         build_index None ∅ variants = Return vep /\
         main header variants fieldnames entries vep_fields
         = stream_report vep vep_fields (fieldnames ++ vep_fields) [] entries)).
Proof.
  split.
  - intros before info after variants fieldnames entries vep_fields Hb Hid.
    unfold main. rewrite (parse_csq_header_skip _ _ Hb). simpl.
    rewrite bool_decide_eq_true_2 by done. split.
    + intros Hd. by rewrite (getitem_None _ _ Hd).
    + intros description Hd Hs. rewrite (getitem_Some _ _ _ Hd). simpl.
      destruct (format_search description) as [g|] eqn:Hg; [|done].
      destruct Hs. apply format_search_has_format. eauto.
  - intros header variants fieldnames entries vep_fields Hh.
    unfold main. rewrite (parse_csq_header_no_csq _ Hh).
    split; [done|]. split.
    + intros Hv. by rewrite (build_index_no_schema _ _ Hv).
    + intros Hv. destruct (build_index_without_csq None variants ∅ Hv) as [vep Hvep].
      exists vep. by rewrite Hvep.
Qed.

Lemma missing_csq_header_witness :
  main [header_without_format] [snv_example] report_columns [row_example] ["Gene"]
  = Abort_header AttributeError /\
  main [] [snv_example] report_columns [row_example] ["Gene"]
  = Abort_index TypeError.
Proof.
  split.
  - assert (Forall (fun i : header_info => i !! "ID" ≠ Some "CSQ") []) as Hb
      by constructor.
    assert (header_without_format !! "ID" = Some "CSQ") as Hid by reflexivity.
    destruct (proj1 missing_csq_header [] header_without_format []
                [snv_example] report_columns [row_example] ["Gene"] Hb Hid)
      as [_ Hformat].
    apply (Hformat (String quote ("Consequence annotations" ++ String quote "")));
      [reflexivity|].
    intros [g Hg]%format_search_has_format. vm_compute in Hg. discriminate Hg.
  - assert (Forall (fun i : header_info => i !! "ID" ≠ Some "CSQ") []) as Hh
      by constructor.
    destruct (proj2 missing_csq_header [] [snv_example]
                report_columns [row_example] ["Gene"] Hh) as (_ & Hraise & _).
    apply Hraise. constructor. discriminate.
Defined.

(** A header without any CSQ entry does not make the run fail: with a VCF in
    which no variant carries a CSQ value the report is written. *)
Lemma missing_csq_header_run_completes :
  main [] [snv_without_csq] report_columns [row_example] ["Gene"]
  = Complete (report_columns ++ ["Gene"]) [<["Gene" := "-"]> row_example].
Proof. by vm_compute. Qed.

(** ** Percent-decoding *)

Lemma in_class_percent : in_class "%" = false.
Proof. reflexivity. Qed.

Lemma upper_hex_in_class (c : ascii) : upper_hex c = true -> in_class c = true.
Proof.
  unfold upper_hex, in_class. cbv zeta.
  destruct (_ && _)%N; simpl; [done|]. intros ->. by rewrite orb_true_r.
Qed.

Lemma upper_hex_value (c : ascii) :
  upper_hex c = true -> exists x, hex_value c = Some x /\ (x < 16)%N.
Proof.
  unfold upper_hex, hex_value. cbv zeta.
  destruct ((48 <=? _) && _)%N eqn:Hd; simpl.
  - intros _. eexists; split; [done|].
    apply andb_true_iff in Hd as [_ H%N.leb_le]. lia.
  - intros Hu. rewrite Hu. eexists; split; [done|].
    apply andb_true_iff in Hu as [_ H%N.leb_le]. lia.
Qed.

Lemma decode_annotation_three (c x y : ascii) (rest : string) :
  decode_annotation (String c (String x (String y rest))) =
  if bool_decide (c = "%"%char) && in_class x && in_class y
  then d ← decode_hex x y; r ← decode_annotation rest; Return (d ++ r)
  else r ← decode_annotation (String x (String y rest)); Return (String c r).
Proof. reflexivity. Qed.

Lemma decode_annotation_match (a b : ascii) (rest : string) :
  in_class a = true -> in_class b = true ->
  decode_annotation (percent a b rest) =
  d ← decode_hex a b; r ← decode_annotation rest; Return (d ++ r).
Proof.
  intros Ha Hb. unfold percent. rewrite decode_annotation_three.
  by rewrite Ha, Hb.
Qed.

(** Decoding goes through a match of the pattern: the text before it is
    decoded on its own, then the match, then the text after it. *)
Lemma decode_annotation_through (pre : string) (a b : ascii) (post : string) :
  in_class a = true -> in_class b = true ->
  decode_annotation (pre ++ percent a b post) =
  x ← decode_annotation pre;
  d ← decode_hex a b;
  y ← decode_annotation post;
  Return (x ++ d ++ y).
Proof.
  intros Ha Hb.
  assert (forall n pre, String.length pre <= n ->
            decode_annotation (pre ++ percent a b post) =
            x ← decode_annotation pre;
            d ← decode_hex a b;
            y ← decode_annotation post;
            Return (x ++ d ++ y)) as H; [|by apply (H (String.length pre))].
  clear pre. induction n as [|n IH]; intros pre Hn.
  - destruct pre; [|simpl in Hn; lia].
    change ("" ++ percent a b post) with (percent a b post).
    rewrite decode_annotation_match by done. simpl.
    destruct (decode_hex a b); [|done]. simpl. by destruct (decode_annotation post).
  - destruct pre as [|c [|x [|y rest]]].
    + apply IH. simpl. lia.
    + assert (String.length "" <= n) as H0 by (simpl; lia).
      apply IH in H0.
      change ("" ++ percent a b post) with (percent a b post) in H0.
      change (String c "" ++ percent a b post)
        with (String c (String "%" (String a (String b post)))).
      rewrite decode_annotation_three, in_class_percent, andb_false_r.
      fold (percent a b post). rewrite H0.
      change (decode_annotation (String c "")) with (Return (String c "")).
      change (decode_annotation "") with (Return "").
      rewrite !bind_Return.
      destruct (decode_hex a b); [|done].
      rewrite !bind_Return. by destruct (decode_annotation post).
    + change (String c (String x "") ++ percent a b post)
        with (String c (String x (String "%" (String a (String b post))))).
      rewrite decode_annotation_three, in_class_percent, andb_false_r.
      change (String x (String "%" (String a (String b post))))
        with (String x "" ++ percent a b post).
      rewrite (IH (String x "")) by (simpl in *; lia).
      change (decode_annotation (String c (String x "")))
        with (Return (String c (String x ""))).
      change (decode_annotation (String x "")) with (Return (String x "")).
      rewrite !bind_Return.
      destruct (decode_hex a b); [|done].
      rewrite !bind_Return. by destruct (decode_annotation post).
    + change (String c (String x (String y rest)) ++ percent a b post)
        with (String c (String x (String y (rest ++ percent a b post)))).
      rewrite !decode_annotation_three.
      destruct (bool_decide (c = "%"%char) && in_class x && in_class y).
      * rewrite (IH rest) by (simpl in Hn; simpl; lia).
        destruct (decode_hex x y) as [d'|]; [|done]. rewrite !bind_Return.
        destruct (decode_annotation rest) as [r|]; [|done]. rewrite !bind_Return.
        destruct (decode_hex a b) as [d|]; [|done]. rewrite !bind_Return.
        destruct (decode_annotation post) as [p|]; [|done]. rewrite !bind_Return.
        by rewrite append_assoc.
      * change (String x (String y (rest ++ percent a b post)))
          with (String x (String y rest) ++ percent a b post).
        rewrite (IH (String x (String y rest))) by (simpl in Hn; simpl; lia).
        destruct (decode_annotation (String x (String y rest))) as [r|]; [|done].
        rewrite !bind_Return. destruct (decode_hex a b) as [d|]; [|done].
        rewrite !bind_Return. by destruct (decode_annotation post).
Qed.

Lemma decode_hex_upper (a b : ascii) :
  upper_hex a = true -> upper_hex b = true -> (byte_of a b < 128)%N ->
  decode_hex a b = Return (String (ascii_of_N (byte_of a b)) "").
Proof.
  intros (x & Hx & _)%upper_hex_value (y & Hy & _)%upper_hex_value.
  unfold decode_hex, byte_of. rewrite Hx, Hy. simpl default.
  intros Hlt%N.ltb_lt. by rewrite Hlt.
Qed.

Lemma decode_annotation_no_match (s : string) :
  (forall pre a b post,
      s = pre ++ percent a b post -> in_class a && in_class b = false) ->
  decode_annotation s = Return s.
Proof.
  induction s as [|c t IH]; intros H; [done|].
  assert (decode_annotation t = Return t) as Ht.
  { apply IH. intros pre a b post ->. by apply (H (String c pre) a b post). }
  destruct t as [|x [|y rest]].
  - done.
  - done.
  - rewrite decode_annotation_three.
    destruct (decide (c = "%"%char)) as [->|Hc].
    + rewrite bool_decide_eq_true_2 by done. simpl andb.
      rewrite (H "" x y rest) by done. by rewrite Ht.
    + rewrite bool_decide_eq_false_2 by done. simpl andb. by rewrite Ht.
Qed.

Lemma decode_annotation_well_encoded (s : string) :
  well_encoded s -> returns (decode_annotation s).
Proof.
  assert (forall n s, String.length s <= n -> well_encoded s ->
                      returns (decode_annotation s)) as H;
    [|by apply (H (String.length s))].
  clear s. induction n as [|n IH]; intros s Hn Hs.
  - destruct s; [by eexists | simpl in Hn; lia].
  - destruct s as [|c [|x [|y rest]]]; [by eexists..|].
    assert (well_encoded (String x (String y rest))) as Htail.
    { intros pre a b post Heq. apply (Hs (String c pre) a b post).
      by rewrite Heq. }
    assert (well_encoded rest) as Hrest.
    { intros pre a b post Heq.
      apply (Hs (String c (String x (String y pre))) a b post). by rewrite Heq. }
    rewrite decode_annotation_three.
    destruct (decide (c = "%"%char)) as [->|Hc].
    + rewrite bool_decide_eq_true_2 by done. simpl andb.
      destruct (in_class x) eqn:Hx; simpl andb.
      * destruct (in_class y) eqn:Hy.
        -- destruct (Hs "" x y rest eq_refl Hx Hy) as (Hux & Huy & Hlt).
           rewrite (decode_hex_upper x y Hux Huy Hlt), bind_Return.
           destruct (IH rest) as [r ->]; [simpl in Hn; lia | done |].
           by eexists.
        -- destruct (IH (String x (String y rest))) as [r ->];
             [simpl in *; lia | done | by eexists].
      * destruct (IH (String x (String y rest))) as [r ->];
          [simpl in *; lia | done | by eexists].
    + rewrite bool_decide_eq_false_2 by done. simpl andb.
      destruct (IH (String x (String y rest))) as [r ->];
        [simpl in *; lia | done | by eexists].
Qed.

(** C4, as the code has it.  Percent-decoding is the identity on a string in
    which no percent sign is followed by two characters of the class
    [0-9|A-F] (a percent sign followed by lowercase digits is left as it is).
    Where a percent sign is followed by two uppercase hexadecimal digits that
    stand for a byte below 128, the three characters are replaced by the
    character with that code, and the text before and the text after are
    decoded on their own.  Decoding returns on every string all of whose
    matches are of that kind.  ['stop%3Dlost'] decodes to ['stop=lost']. *)
Theorem percent_decoding :
  (forall s,
      (forall pre a b post,
          s = pre ++ percent a b post -> in_class a && in_class b = false) ->
      decode_annotation s = Return s) /\
  (forall pre a b post,
      upper_hex a = true -> upper_hex b = true -> (byte_of a b < 128)%N ->
      decode_annotation (pre ++ percent a b post) =
      x ← decode_annotation pre;
      y ← decode_annotation post;
      Return (x ++ String (ascii_of_N (byte_of a b)) y)) /\
  (forall s, well_encoded s -> returns (decode_annotation s)) /\
  decode_annotation "stop%3Dlost" = Return "stop=lost".
Proof.
  split; [exact decode_annotation_no_match|].
  split; [|split; [exact decode_annotation_well_encoded | reflexivity]].
  intros pre a b post Ha Hb Hlt.
  rewrite decode_annotation_through by (by apply upper_hex_in_class).
  by rewrite (decode_hex_upper a b Ha Hb Hlt).
Qed.

Lemma percent_decoding_witness :
  decode_annotation ("stop" ++ percent "3" "D" "lost") = Return "stop=lost".
Proof.
  destruct percent_decoding as (_ & Hmatch & _).
  rewrite (Hmatch "stop" "3"%char "D"%char "lost");
    [reflexivity | reflexivity | reflexivity | vm_compute; reflexivity].
Defined.

(** A percent sign followed by two lowercase hexadecimal digits is not
    replaced; text that holds no percent sign followed by two hexadecimal
    digits (['%|A']) is not passed through, and neither is an encoded byte
    above 127: both raise. *)
Lemma percent_decoding_not_as_stated :
  (hex_digit "3" && hex_digit "d" = true /\
   decode_annotation "%3d" = Return "%3d") /\
  (hex_digit "|" = false /\
   decode_annotation "%|A" = Raise BinasciiError) /\
  (hex_digit "C" && hex_digit "3" = true /\
   decode_annotation "%C3%A9" = Raise UnicodeDecodeError).
Proof. repeat split; reflexivity. Qed.

(** * Further properties *)

(** ** Which variants [resolve_alleles] resolves *)

(** X1.  [resolve_alleles] raises exactly on the variants flagged as
    structural and not as indel.  On every other variant the dict it returns
    has the ALTs of the variant as its keys and no other key, whatever the
    annotation tokens are: an ALT of an indel holds its indel token, an ALT of
    any other variant holds the ALT itself. *)
Theorem resolve_alleles_keys (entry : variant) (csq_alleles : gset string) :
  (returns (resolve_alleles entry csq_alleles) <->
   is_indel entry = true \/ is_sv entry = false) /\
  (forall alleles,
      resolve_alleles entry csq_alleles = Return alleles ->
      forall alt,
        alleles !! alt =
        if decide (alt ∈ ALT entry)
        then Some (if is_indel entry then indel_allele (REF entry) alt else alt)
        else None).
Proof.
  unfold resolve_alleles, resolve_alleles_in, module_globals_alts, returns.
  destruct (is_indel entry) eqn:Hi; [|destruct (is_sv entry) eqn:Hs].
  - split; [split; eauto|]. intros alleles [= <-] alt.
    by rewrite (lookup_foldl_insert (indel_allele (REF entry))), lookup_empty.
  - split.
    + split; [intros [? ?]; discriminate | intros [?|?]; discriminate].
    + intros alleles ?. discriminate.
  - split; [split; eauto|]. intros alleles [= <-] alt.
    by rewrite (lookup_foldl_insert (fun a => a)), lookup_empty.
Qed.

(** ** What [transcript_for_alt] returns and raises *)

(** X2.  [transcript_for_alt] raises [KeyError] on an allele that has no
    group and [IndexError] on an allele whose group is empty; a record it
    returns is a member of the group of the allele. *)
Theorem transcript_for_alt_cases (transcripts : gmap string (list record))
    (alt : string) :
  (transcripts !! alt = None ->
   transcript_for_alt transcripts alt = Raise (KeyError alt)) /\
  (transcripts !! alt = Some [] ->
   transcript_for_alt transcripts alt = Raise IndexError) /\
  (forall t,
      transcript_for_alt transcripts alt = Return t ->
      exists group, transcripts !! alt = Some group /\ t ∈ group).
Proof.
  split; [|split].
  - intros H. unfold transcript_for_alt. by rewrite (getitem_None _ _ H).
  - intros H. by rewrite (transcript_for_alt_group _ _ _ H).
  - intros t. destruct (transcripts !! alt) as [group|] eqn:Hg.
    + rewrite (transcript_for_alt_group _ _ _ Hg). intros Ht.
      exists group. split; [done|].
      destruct (first_picked group) as [t'|] eqn:Hf.
      * injection Ht as <-.
        apply first_picked_Some in Hf as (before & after & -> & _).
        apply elem_of_app. right. by left.
      * destruct group as [|t' group]; [discriminate|].
        injection Ht as <-. by left.
    + unfold transcript_for_alt. by rewrite (getitem_None _ _ Hg).
Qed.

Lemma transcript_for_alt_cases_witness :
  transcript_for_alt ∅ "T" = Raise (KeyError "T") /\
  transcript_for_alt {[ "T" := [] ]} "T" = Raise IndexError.
Proof.
  split.
  - apply (proj1 (transcript_for_alt_cases ∅ "T")). reflexivity.
  - apply (proj1 (proj2 (transcript_for_alt_cases {[ "T" := [] ]} "T"))).
    reflexivity.
Defined.

(** ** Splitting and joining *)

Lemma join_cons (sep x : string) (l : list string) :
  l ≠ [] -> join sep (x :: l) = x ++ sep ++ join sep l.
Proof. by destruct l. Qed.

Lemma split_no_sep (sep : ascii) (s : string) :
  occurs sep s = false -> split sep s = [s].
Proof.
  induction s as [|c s IH]; [done|]. simpl occurs.
  intros [Hc Hs]%orb_false_iff. apply bool_decide_eq_false in Hc.
  cbn [split]. rewrite decide_False by done. by rewrite IH.
Qed.

Lemma split_append_sep (sep : ascii) (x rest : string) :
  occurs sep x = false ->
  split sep (x ++ String sep rest) = x :: split sep rest.
Proof.
  induction x as [|c x IH].
  - intros _. rewrite append_empty. cbn [split]. by rewrite decide_True.
  - simpl occurs. intros [Hc Hx]%orb_false_iff. apply bool_decide_eq_false in Hc.
    rewrite append_String. cbn [split]. rewrite decide_False by done.
    by rewrite IH.
Qed.

(** X3.  Splitting a string at a separator and joining the pieces with it
    gives the string back, and no piece holds the separator; joining a
    non-empty list of pieces that do not hold the separator and splitting the
    result gives the list back. *)
Theorem split_join_round_trip (sep : ascii) :
  (forall s,
      join (String sep "") (split sep s) = s /\
      Forall (fun piece => occurs sep piece = false) (split sep s)) /\
  (forall l,
      l ≠ [] -> Forall (fun piece => occurs sep piece = false) l ->
      split sep (join (String sep "") l) = l).
Proof.
  split.
  - induction s as [|c s [IHj IHf]]; [by repeat constructor|].
    cbn [split]. pose proof (split_nonempty sep s) as Hne.
    destruct (decide (c = sep)) as [->|Hc].
    + split; [|by constructor].
      rewrite join_cons by done. by rewrite IHj.
    + destruct (split sep s) as [|h r]; [done|].
      apply Forall_cons in IHf as [Hh Hr]. split.
      * destruct r as [|h' r].
        -- simpl in IHj. by rewrite <- IHj.
        -- rewrite join_cons by done. rewrite join_cons in IHj by done.
           by rewrite <- IHj.
      * constructor; [|done]. simpl. by rewrite bool_decide_eq_false_2.
  - induction l as [|x l IH]; [done|]. intros _ [Hx Hl]%Forall_cons.
    destruct l as [|y l].
    + by apply split_no_sep.
    + rewrite join_cons by done.
      change (x ++ String sep "" ++ join (String sep "") (y :: l))
        with (x ++ String sep (join (String sep "") (y :: l))).
      rewrite split_append_sep by done. by rewrite IH.
Qed.

Lemma split_join_round_trip_witness :
  split "," (join "," ["A"; "AT"; "-"]) = ["A"; "AT"; "-"].
Proof.
  apply (proj2 (split_join_round_trip ","%char)); [discriminate|].
  repeat constructor.
Defined.

(** ** When percent-decoding raises *)

Lemma in_class_hex_value (c : ascii) (x : N) :
  in_class c = true -> hex_value c = Some x -> upper_hex c = true.
Proof.
  unfold in_class, hex_value, upper_hex. cbv zeta.
  destruct ((48 <=? N_of_ascii c) && (N_of_ascii c <=? 57))%N; [done|].
  destruct ((65 <=? N_of_ascii c) && (N_of_ascii c <=? 70))%N; [done|].
  simpl. rewrite orb_false_r. intros ->%N.eqb_eq. discriminate.
Qed.

Lemma decode_hex_returns (a b : ascii) (d : string) :
  in_class a = true -> in_class b = true -> decode_hex a b = Return d ->
  upper_hex a = true /\ upper_hex b = true /\ (byte_of a b < 128)%N /\
  d = String (ascii_of_N (byte_of a b)) "".
Proof.
  intros Ha Hb. unfold decode_hex, byte_of.
  destruct (hex_value a) as [x|] eqn:Hx; [|done].
  destruct (hex_value b) as [y|] eqn:Hy; [|done]. simpl default.
  destruct (16 * x + y <? 128)%N eqn:Hlt; [|done]. intros [= <-].
  apply N.ltb_lt in Hlt.
  split; [by apply (in_class_hex_value a x)|].
  split; [by apply (in_class_hex_value b y)|]. done.
Qed.

Lemma decode_hex_raises (a b : ascii) (e : exn) :
  decode_hex a b = Raise e -> e = BinasciiError \/ e = UnicodeDecodeError.
Proof.
  unfold decode_hex. destruct (hex_value a); [|intros [= <-]; auto].
  destruct (hex_value b); [|intros [= <-]; auto].
  case_match; [done | intros [= <-]; auto].
Qed.

Lemma decode_annotation_raises (s : string) (e : exn) :
  decode_annotation s = Raise e -> e = BinasciiError \/ e = UnicodeDecodeError.
Proof.
  assert (forall n s e, String.length s <= n -> decode_annotation s = Raise e ->
                        e = BinasciiError \/ e = UnicodeDecodeError) as H;
    [|by apply (H (String.length s))].
  clear s e. induction n as [|n IH]; intros s e Hn.
  - destruct s; [discriminate | simpl in Hn; lia].
  - destruct s as [|c [|x [|y rest]]]; [discriminate..|].
    rewrite decode_annotation_three.
    destruct (bool_decide (c = "%"%char) && in_class x && in_class y).
    + destruct (decode_hex x y) as [d|e'] eqn:Hd.
      * rewrite bind_Return.
        destruct (decode_annotation rest) as [r|e'] eqn:Hr; [discriminate|].
        intros [= <-]. apply (IH rest); [simpl in Hn; lia | done].
      * intros [= <-]. by apply (decode_hex_raises x y).
    + destruct (decode_annotation (String x (String y rest))) as [r|e'] eqn:Hr;
        [discriminate|].
      intros [= <-]. apply (IH (String x (String y rest)));
        [simpl in *; lia | done].
Qed.

(** X4.  Percent-decoding returns exactly on the strings in which every
    percent sign followed by two characters of the class [0-9|A-F] is
    followed by two uppercase hexadecimal digits that stand for a byte below
    128; when it raises, the exception is [binascii.Error] or
    [UnicodeDecodeError]. *)
Theorem decode_annotation_returns_iff (s : string) :
  (returns (decode_annotation s) <-> well_encoded s) /\
  (forall e, decode_annotation s = Raise e ->
             e = BinasciiError \/ e = UnicodeDecodeError).
Proof.
  split; [split; [|apply decode_annotation_well_encoded]|].
  - intros [t Ht] pre a b post -> Ha Hb.
    rewrite decode_annotation_through in Ht by done.
    destruct (decode_annotation pre); [|discriminate]. rewrite bind_Return in Ht.
    destruct (decode_hex a b) as [d|] eqn:Hd; [|discriminate].
    apply decode_hex_returns in Hd as (? & ? & ? & _); auto.
  - apply decode_annotation_raises.
Qed.

(** X5.  A decoded annotation is never longer than the annotation. *)
Theorem decode_annotation_length (s t : string) :
  decode_annotation s = Return t -> String.length t <= String.length s.
Proof.
  assert (forall n s t, String.length s <= n -> decode_annotation s = Return t ->
                        String.length t <= String.length s) as H;
    [|by apply (H (String.length s))].
  clear s t. induction n as [|n IH]; intros s t Hn.
  - destruct s; [by intros [= <-] | simpl in Hn; lia].
  - destruct s as [|c [|x [|y rest]]]; [by intros [= <-]..|].
    rewrite decode_annotation_three.
    destruct (bool_decide (c = "%"%char) && in_class x && in_class y).
    + unfold decode_hex. destruct (hex_value x); [|done].
      destruct (hex_value y); [|done]. case_match; [|done].
      rewrite bind_Return.
      destruct (decode_annotation rest) as [r|] eqn:Hr; [|done].
      intros [= <-]. apply IH in Hr; [|simpl in Hn; lia].
      change (String.length (String (ascii_of_N (16 * n0 + n1)) r)
              <= String.length (String c (String x (String y rest)))).
      simpl. lia.
    + destruct (decode_annotation (String x (String y rest))) as [r|] eqn:Hr;
        [|done].
      intros [= <-]. apply IH in Hr; [|simpl in *; lia]. simpl in *. lia.
Qed.

Lemma decode_annotation_length_witness :
  String.length "stop=lost" <= String.length "stop%3Dlost".
Proof. apply decode_annotation_length. reflexivity. Defined.

(** ** The default output path *)

Lemma rsplit_at_Some (sep s head tail : string) :
  rsplit_at sep s = Some (head, tail) ->
  s = head ++ sep ++ tail /\
  forall head' tail',
    s = head' ++ sep ++ tail' -> String.length head' <= String.length head.
Proof.
  revert head. induction s as [|c s IH]; intros head; cbn [rsplit_at].
  - destruct (strip_prefix sep "") as [tl|] eqn:Hp; [|done].
    intros [= <- <-]. apply strip_prefix_Some in Hp. split; [done|].
    intros [|c h'] tail' Heq; [done|]. by rewrite append_String in Heq.
  - destruct (rsplit_at sep s) as [[h tl]|] eqn:Hr.
    + intros [= <- <-]. destruct (IH h eq_refl) as [-> Hlast].
      split; [by rewrite append_String|].
      intros [|c' h'] tail' Heq; [simpl; lia|].
      rewrite append_String in Heq. injection Heq as -> Heq.
      apply Hlast in Heq. simpl. lia.
    + destruct (strip_prefix sep (String c s)) as [tl|] eqn:Hp; [|done].
      intros [= <- <-]. apply strip_prefix_Some in Hp. split; [done|].
      intros [|c' h'] tail' Heq; [done|].
      rewrite append_String in Heq. injection Heq as -> Heq.
      clear IH Hp. exfalso. revert h' Heq Hr. clear.
      induction s as [|x s IHs]; intros h' Heq Hr; cbn [rsplit_at] in Hr.
      * destruct h'; [|by rewrite append_String in Heq].
        rewrite append_empty in Heq.
        by rewrite Heq, strip_prefix_append in Hr.
      * destruct (rsplit_at sep s) as [[? ?]|] eqn:Hs; [done|].
        destruct h' as [|y h'].
        -- rewrite append_empty in Heq.
           by rewrite Heq, strip_prefix_append in Hr.
        -- rewrite append_String in Heq. injection Heq as -> Heq.
           by apply (IHs h').
Qed.

Lemma rsplit_at_None (sep s : string) :
  rsplit_at sep s = None -> forall head tail, s ≠ head ++ sep ++ tail.
Proof.
  induction s as [|c s IH]; cbn [rsplit_at].
  - destruct (strip_prefix sep "") eqn:Hp; [done|]. intros _ head tail Heq.
    destruct head; [|by rewrite append_String in Heq].
    rewrite append_empty in Heq. by rewrite Heq, strip_prefix_append in Hp.
  - destruct (rsplit_at sep s) as [[? ?]|]; [done|].
    destruct (strip_prefix sep (String c s)) eqn:Hp; [done|].
    intros _ [|c' h] tail Heq.
    + rewrite append_empty in Heq. by rewrite Heq, strip_prefix_append in Hp.
    + rewrite append_String in Heq. injection Heq as -> Heq.
      by apply (IH eq_refl h tail).
Qed.

Lemma output_file_cases (input_vcf : string) :
  (exists head tail,
      input_vcf = head ++ ".vcf" ++ tail /\
      (forall head' tail',
          input_vcf = head' ++ ".vcf" ++ tail' ->
          String.length head' <= String.length head) /\
      output_file None input_vcf = head ++ ".tsv") \/
  ((forall head tail, input_vcf ≠ head ++ ".vcf" ++ tail) /\
   output_file None input_vcf = ".tsv").
Proof.
  unfold output_file, rpartition.
  destruct (rsplit_at ".vcf" input_vcf) as [[head tail]|] eqn:Hr.
  - left. exists head, tail.
    destruct (rsplit_at_Some _ _ _ _ Hr) as [Heq Hlast]. by repeat split.
  - right. split; [by apply rsplit_at_None | done].
Qed.

Lemma output_file_vcf_suffix (stem : string) :
  output_file None (stem ++ ".vcf") = stem ++ ".tsv".
Proof.
  destruct (output_file_cases (stem ++ ".vcf"))
    as [(head & tail & Heq & Hlast & ->)|[Hno _]].
  - f_equal. pose proof (Hlast stem "" eq_refl) as Hlen.
    assert (String.length (stem ++ ".vcf") = String.length stem + 4) as H1.
    { clear. induction stem as [|c s IH]; [done|].
      rewrite append_String. simpl. by rewrite IH. }
    assert (String.length (head ++ ".vcf" ++ tail)
            = String.length head + 4 + String.length tail) as H2.
    { clear. induction head as [|c s IH].
      - rewrite append_empty. change (".vcf" ++ tail)
          with (String "." (String "v" (String "c" (String "f" tail)))).
        simpl. lia.
      - rewrite append_String. simpl. rewrite IH. lia. }
    rewrite Heq in H1 at 1. rewrite H1 in H2.
    assert (String.length head = String.length stem) as Hl by lia.
    clear - Heq Hl. revert head Heq Hl.
    induction stem as [|c s IH]; intros [|x head] Heq Hl; try done.
    rewrite !append_String in Heq. injection Heq as -> Heq.
    f_equal. apply IH; [done | by injection Hl].
  - destruct (Hno stem ""). done.
Qed.

(** X6.  Without an output path (none given, or the empty string), the
    report is written to the text of the input path before its last ['.vcf'],
    followed by ['.tsv'], so that whatever follows the last ['.vcf'] is
    dropped; when the input path holds no ['.vcf'] the report is written to
    ['.tsv'].  An input path that ends in ['.vcf'] gives the same path with
    ['.tsv'] in its place.  A non-empty output path is used as it is. *)
Theorem output_file_default (input_vcf : string) :
  output_file (Some "") input_vcf = output_file None input_vcf /\
  (forall path, path ≠ "" -> output_file (Some path) input_vcf = path) /\
  ((exists head tail,
       input_vcf = head ++ ".vcf" ++ tail /\
       (forall head' tail',
           input_vcf = head' ++ ".vcf" ++ tail' ->
           String.length head' <= String.length head) /\
       output_file None input_vcf = head ++ ".tsv") \/
   ((forall head tail, input_vcf ≠ head ++ ".vcf" ++ tail) /\
    output_file None input_vcf = ".tsv")) /\
  (forall stem,
      input_vcf = stem ++ ".vcf" -> output_file None input_vcf = stem ++ ".tsv").
Proof.
  split; [done|]. split; [by intros [|c path]|].
  split; [apply output_file_cases|].
  intros stem ->. apply output_file_vcf_suffix.
Qed.

Lemma output_file_default_witness :
  output_file None "calls/sample.vcf" = "calls/sample.tsv" /\
  output_file (Some "out.tsv") "calls/sample.vcf" = "out.tsv".
Proof.
  destruct (output_file_default "calls/sample.vcf") as (_ & Hpath & _ & Hstem).
  split; [by apply (Hstem "calls/sample") | by apply Hpath].
Defined.

(** ** What index construction writes *)

Lemma stored_with_slot_ne (vep : allele_index) (chr pos ref c p r alt : string)
    (slot : alt_slot) :
  ¬ (c = chr /\ p = pos /\ r = ref) ->
  stored (with_slot vep chr pos ref slot) c p r alt = stored vep c p r alt.
Proof.
  intros Hne. unfold stored, with_slot, level.
  destruct (decide (c = chr)) as [->|Hc]; [|by rewrite lookup_insert_ne].
  rewrite lookup_insert_eq. simpl.
  destruct (decide (p = pos)) as [->|Hp].
  - rewrite lookup_insert_eq. simpl.
    rewrite lookup_insert_ne by (intros <-; by apply Hne).
    destruct (vep !! chr) as [by_pos|]; simpl; [|done].
    by destruct (by_pos !! pos).
  - rewrite lookup_insert_ne by done.
    by destruct (vep !! chr).
Qed.

Lemma select_transcript_for_alt (transcripts : gmap string (list record))
    (token : string) (group : list record) (t : record) :
  transcripts !! token = Some group ->
  transcript_for_alt transcripts token = Return t ->
  select_transcript group = Some t.
Proof.
  intros Hg. rewrite (transcript_for_alt_group _ _ _ Hg). unfold select_transcript.
  destruct (first_picked group); [by intros [= ->]|].
  destruct group; [discriminate | by intros [= ->]].
Qed.

(** The loop over the ALTs, when it returns: the ALTs were all different and
    none was in the slot; each now holds the record selected for its token,
    or the absent-marker; nothing else in the slot has changed. *)
Lemma store_alts_returns (transcripts : gmap string (list record))
    (alleles_dict : gmap string string) (chr pos ref : string)
    (alts : list string) (slot slot' : alt_slot) :
  store_alts transcripts alleles_dict chr pos ref slot alts = Return slot' ->
  NoDup alts /\
  (forall alt, alt ∈ alts -> slot !! alt = None) /\
  (forall alt, alt ∉ alts -> slot' !! alt = slot !! alt) /\
  (forall alt, alt ∈ alts ->
     exists token,
       alleles_dict !! alt = Some token /\
       slot' !! alt = Some (transcripts !! token ≫= select_transcript)).
Proof.
  revert slot. induction alts as [|alt alts IH]; intros slot; cbn [store_alts].
  - intros [= <-]. split; [constructor|].
    split; [by intros ? ?%elem_of_nil|]. split; [done|]. by intros ? ?%elem_of_nil.
  - destruct (slot !! alt) eqn:Hfresh; [done|].
    unfold getitem. destruct (alleles_dict !! alt) as [token|] eqn:Htok; [|done].
    rewrite bind_Return.
    assert (forall stored_value : option record,
               store_alts transcripts alleles_dict chr pos ref
                          (<[alt := stored_value]> slot) alts = Return slot' ->
               stored_value = transcripts !! token ≫= select_transcript ->
               NoDup (alt :: alts) /\
               (forall a, a ∈ alt :: alts -> slot !! a = None) /\
               (forall a, a ∉ alt :: alts -> slot' !! a = slot !! a) /\
               (forall a, a ∈ alt :: alts ->
                  exists token,
                    alleles_dict !! a = Some token /\
                    slot' !! a = Some (transcripts !! token ≫= select_transcript)))
      as Hstep.
    { intros x (Hnd & Hnone & Hframe & Hval)%IH Hx.
      assert (alt ∉ alts) as Hnotin.
      { intros Hin%Hnone. by rewrite lookup_insert_eq in Hin. }
      split; [by constructor|]. split; [|split].
      - intros a [->|Hin]%elem_of_cons; [done|].
        specialize (Hnone a Hin). destruct (decide (a = alt)) as [->|Hne]; [done|].
        by rewrite lookup_insert_ne in Hnone.
      - intros a Ha. rewrite Hframe by (intros ?; apply Ha; by right).
        apply lookup_insert_ne. intros <-. apply Ha. by left.
      - intros a [->|Hin]%elem_of_cons; [|by apply Hval].
        exists token. split; [done|].
        by rewrite (Hframe alt Hnotin), lookup_insert_eq, Hx. }
    destruct (transcripts !! token) as [group|] eqn:Hg.
    + destruct (transcript_for_alt transcripts token) as [t|] eqn:Ht; [|done].
      rewrite !bind_Return. intros Hs. apply (Hstep _ Hs). simpl.
      by rewrite (select_transcript_for_alt _ _ _ _ Hg Ht).
    + rewrite bind_Return. intros Hs. by apply (Hstep _ Hs).
Qed.

(** The loop over the ALTs returns when they are all different, none is in
    the slot, each has a token and no group is empty. *)
Lemma store_alts_total (transcripts : gmap string (list record))
    (alleles_dict : gmap string string) (chr pos ref : string)
    (alts : list string) (slot : alt_slot) :
  NoDup alts ->
  (forall alt, alt ∈ alts -> slot !! alt = None) ->
  (forall alt, alt ∈ alts -> is_Some (alleles_dict !! alt)) ->
  (forall token group, transcripts !! token = Some group -> group ≠ []) ->
  returns (store_alts transcripts alleles_dict chr pos ref slot alts).
Proof.
  intros Hnd Hfresh Htok Hne. revert slot Hfresh.
  induction Hnd as [|alt alts Hnotin Hnd IH]; intros slot Hfresh; cbn [store_alts].
  - by eexists.
  - rewrite (Hfresh alt) by (by left).
    destruct (Htok alt) as [token Ht]; [by left|].
    rewrite (getitem_Some _ _ _ Ht), bind_Return.
    assert (forall x, returns (store_alts transcripts alleles_dict chr pos ref
                                          (<[alt := x]> slot) alts)) as Hrest.
    { intros x. apply IH.
      - intros a Ha. apply Htok. by right.
      - intros a Ha. rewrite lookup_insert_ne by (intros <-; done).
        apply Hfresh. by right. }
    destruct (transcripts !! token) as [group|] eqn:Hg.
    + rewrite (transcript_for_alt_group _ _ _ Hg).
      destruct (first_picked group) as [t|]; [rewrite !bind_Return; apply Hrest|].
      destruct group as [|t group]; [by destruct (Hne token [])|].
      simpl getitem0. rewrite !bind_Return. apply Hrest.
    + rewrite bind_Return. apply Hrest.
Qed.

Lemma resolve_alleles_Return (entry : variant) (csq_alleles : gset string)
    (alleles : gmap string string) :
  resolve_alleles entry csq_alleles = Return alleles ->
  (is_indel entry = true \/ is_sv entry = false) /\
  forall alt,
    alleles !! alt =
    if decide (alt ∈ ALT entry) then Some (token_of entry alt) else None.
Proof.
  unfold resolve_alleles, resolve_alleles_in, module_globals_alts, token_of.
  destruct (is_indel entry) eqn:Hi; [|destruct (is_sv entry) eqn:Hs].
  - intros [= <-]. split; [auto|]. intros alt.
    by rewrite (lookup_foldl_insert (indel_allele (REF entry))), lookup_empty.
  - discriminate.
  - intros [= <-]. split; [auto|]. intros alt.
    by rewrite (lookup_foldl_insert (fun a => a)), lookup_empty.
Qed.

Lemma parse_csq_entries_Return (csq_entries : list string)
    (csq_fields : option (list string)) (transcripts : gmap string (list record)) :
  csq_entries ≠ [] ->
  parse_csq_entries csq_entries csq_fields = Return transcripts ->
  exists fields,
    csq_fields = Some fields /\
    Forall (supplies_allele fields) csq_entries /\
    forall allele,
      transcripts !! allele =
      match filter (fun r => r !! "Allele" = Some allele)
                   (record_of fields <$> csq_entries) with
      | [] => None
      | g => Some g
      end.
Proof.
  intros Hne. destruct csq_fields as [fields|]; simpl.
  - intros Hp. exists fields. split; [done|].
    pose proof (parse_entries_from_returns _ _ _ _ Hp) as Hall. split; [done|].
    destruct (parse_entries_from_groups fields csq_entries ∅ Hall)
      as (t' & Hp' & Hl).
    rewrite Hp in Hp'. injection Hp' as <-. intros allele.
    rewrite Hl, lookup_empty. by destruct (filter _ _).
  - by destruct csq_entries.
Qed.

(** What one pass of the loop over the variants leaves in the index, for a
    variant that carries a CSQ value. *)
Lemma index_variant_with_csq_Return (csq_fields : option (list string))
    (vep vep' : allele_index) (v : variant) (csq : string) :
  INFO_CSQ v = Some csq ->
  index_variant csq_fields vep v = Return vep' ->
  exists fields slot',
    csq_fields = Some fields /\
    Forall (supplies_allele fields) (split "," csq) /\
    (is_indel v = true \/ is_sv v = false) /\
    vep' = with_slot vep (CHROM v) (pretty (POS v)) (REF v) slot' /\
    NoDup (ALT v) /\
    (forall alt, alt ∈ ALT v ->
       stored vep (CHROM v) (pretty (POS v)) (REF v) alt = None) /\
    (forall alt, alt ∉ ALT v ->
       slot' !! alt = stored vep (CHROM v) (pretty (POS v)) (REF v) alt) /\
    (forall alt, alt ∈ ALT v ->
       slot' !! alt =
       Some (select_transcript
               (filter (fun r => r !! "Allele" = Some (token_of v alt))
                       (record_of fields <$> split "," csq)))).
Proof.
  intros Hcsq. unfold index_variant. rewrite Hcsq.
  intros (transcripts & Hp & H)%bind_returns.
  apply bind_returns in H as (alleles & Hres & H).
  apply bind_returns in H as (slot' & Hst & [= <-]).
  apply parse_csq_entries_Return in Hp as (fields & -> & Hall & Hgroups);
    [|apply split_nonempty].
  apply resolve_alleles_Return in Hres as [Hkind Halleles].
  apply store_alts_returns in Hst as (Hnd & Hfresh & Hframe & Hval).
  exists fields, slot'. repeat split; try done.
  - intros alt Hin. rewrite <- stored_slot_at. by apply Hfresh.
  - intros alt Hin. rewrite <- stored_slot_at. by apply Hframe.
  - intros alt Hin. destruct (Hval alt Hin) as (token & Htok & ->).
    rewrite Halleles, decide_True in Htok by done. injection Htok as <-.
    f_equal. rewrite Hgroups. by destruct (filter _ _).
Qed.

(** X7.  When the pass of the loop of [main] over a variant that carries a
    CSQ value returns, the ALTs of the variant are all different and the
    index held nothing for any of them before the pass; a record the index
    then holds for an ALT has the token of that ALT as its ['Allele'] value;
    and the index holds for every other key what it held before. *)
Theorem index_variant_with_csq_writes_once (csq_fields : option (list string))
    (vep vep' : allele_index) (v : variant) (csq : string) :
  INFO_CSQ v = Some csq ->
  index_variant csq_fields vep v = Return vep' ->
  NoDup (ALT v) /\
  (forall alt, alt ∈ ALT v ->
     stored vep (CHROM v) (pretty (POS v)) (REF v) alt = None /\
     forall t,
       stored vep' (CHROM v) (pretty (POS v)) (REF v) alt = Some (Some t) ->
       t !! "Allele" = Some (token_of v alt)) /\
  (forall chrom pos ref alt,
     ¬ (chrom = CHROM v /\ pos = pretty (POS v) /\ ref = REF v /\ alt ∈ ALT v) ->
     stored vep' chrom pos ref alt = stored vep chrom pos ref alt).
Proof.
  intros Hcsq Hret.
  destruct (index_variant_with_csq_Return _ _ _ _ _ Hcsq Hret)
    as (fields & slot' & _ & _ & _ & -> & Hnd & Hfresh & Hframe & Hval).
  split; [done|]. split.
  - intros alt Hin. split; [by apply Hfresh|]. intros t.
    rewrite stored_with_slot, (Hval alt Hin). intros [= Hsel].
    assert (t ∈ filter (fun r => r !! "Allele" = Some (token_of v alt))
                       (record_of fields <$> split "," csq)) as Ht.
    { unfold select_transcript in Hsel.
      destruct (first_picked _) as [t'|] eqn:Hf.
      - injection Hsel as ->.
        apply first_picked_Some in Hf as (before & after & -> & _).
        apply elem_of_app. right. by left.
      - destruct (filter _ _) as [|t' g]; [discriminate|].
        injection Hsel as ->. by left. }
    by apply list_elem_of_filter in Ht as [Ht _].
  - intros chrom pos ref alt Hne.
    destruct (decide (chrom = CHROM v /\ pos = pretty (POS v) /\ ref = REF v))
      as [(-> & -> & ->)|Hkey].
    + rewrite stored_with_slot. apply Hframe. intros Hin. by apply Hne.
    + by apply stored_with_slot_ne.
Qed.

Lemma index_variant_with_csq_writes_once_witness :
  exists vep',
    index_variant (Some ["Allele"; "Gene"; "PICK"]) ∅ snv_example = Return vep' /\
    forall t, stored vep' "1" "100" "A" "T" = Some (Some t) ->
              t !! "Allele" = Some "T".
Proof.
  assert (exists vep', index_variant (Some ["Allele"; "Gene"; "PICK"]) ∅
                                     snv_example = Return vep') as [vep' Hret].
  { eexists. vm_compute. reflexivity. }
  exists vep'. split; [exact Hret|]. intros t Ht.
  assert (INFO_CSQ snv_example = Some "T|GENE1|1,T|GENE2|0") as Hcsq
      by reflexivity.
  destruct (index_variant_with_csq_writes_once _ _ _ _ _ Hcsq Hret)
    as (_ & Hown & _).
  destruct (Hown "T") as [_ Hallele]; [by left|]. by apply Hallele.
Defined.

(** X8.  For a variant that carries a CSQ value and is an indel or not a
    structural variant, whose CSQ entries all have a value at an ['Allele']
    position, whose ALTs are all different and for whose ALTs the index holds
    nothing: the pass of the loop of [main] returns, and the index then holds
    for each ALT the first record with ['PICK'] equal to ['1'] among the
    records whose ['Allele'] value is the token of the ALT, in entry order,
    the first of these records when none has it, and the absent-marker when
    there is no such record. *)
Theorem index_variant_with_csq_stores (csq_fields : list string)
    (vep : allele_index) (v : variant) (csq : string) :
  INFO_CSQ v = Some csq ->
  is_indel v = true \/ is_sv v = false ->
  Forall (supplies_allele csq_fields) (split "," csq) ->
  NoDup (ALT v) ->
  (forall alt, alt ∈ ALT v ->
     stored vep (CHROM v) (pretty (POS v)) (REF v) alt = None) ->
  exists vep',
    index_variant (Some csq_fields) vep v = Return vep' /\
    forall alt, alt ∈ ALT v ->
      stored vep' (CHROM v) (pretty (POS v)) (REF v) alt =
      Some (select_transcript
              (filter (fun r => r !! "Allele" = Some (token_of v alt))
                      (record_of csq_fields <$> split "," csq))).
Proof.
  intros Hcsq Hkind Hall Hnd Hfresh.
  assert (returns (index_variant (Some csq_fields) vep v)) as [vep' Hret].
  { unfold index_variant. rewrite Hcsq. unfold parse_csq_entries.
    destruct (parse_entries_from_groups csq_fields (split "," csq) ∅ Hall)
      as (transcripts & Hp & _).
    rewrite Hp, bind_Return.
    assert (exists alleles, resolve_alleles v (dom transcripts) = Return alleles)
      as [alleles Hres].
    { unfold resolve_alleles, resolve_alleles_in.
      destruct (is_indel v); [eauto|]. destruct Hkind as [Hk|Hk]; [done|].
      rewrite Hk. eauto. }
    rewrite Hres, bind_Return.
    destruct (store_alts_total transcripts alleles (CHROM v) (pretty (POS v))
                (REF v) (ALT v) (slot_at vep (CHROM v) (pretty (POS v)) (REF v)))
      as [slot' Hst]; try done.
    - intros alt Hin. rewrite stored_slot_at. by apply Hfresh.
    - intros alt Hin. apply resolve_alleles_Return in Hres as [_ Hl].
      rewrite Hl, decide_True by done. eauto.
    - intros token group. apply (parse_entries_from_nonempty _ _ _ _ Hp).
      intros a g. by rewrite lookup_empty.
    - rewrite Hst, bind_Return. by eexists. }
  exists vep'. split; [done|]. intros alt Hin.
  destruct (index_variant_with_csq_Return _ _ _ _ _ Hcsq Hret)
    as (fields & slot' & [= <-] & _ & _ & -> & _ & _ & _ & Hval).
  rewrite stored_with_slot. by apply Hval.
Qed.

Lemma index_variant_with_csq_stores_witness :
  exists vep',
    index_variant (Some ["Allele"; "Gene"; "PICK"]) ∅ snv_example = Return vep' /\
    stored vep' "1" "100" "A" "T"
    = Some (Some {[ "Allele" := "T"; "Gene" := "GENE1"; "PICK" := "1" ]}).
Proof.
  assert (Forall (supplies_allele ["Allele"; "Gene"; "PICK"])
                 (split "," "T|GENE1|1,T|GENE2|0")) as Hall.
  { repeat constructor; exists 0; (split; [reflexivity | simpl; lia]). }
  assert (NoDup (ALT snv_example)) as Hnd.
  { repeat constructor. intros H. by apply elem_of_nil in H. }
  destruct (index_variant_with_csq_stores ["Allele"; "Gene"; "PICK"] ∅
              snv_example "T|GENE1|1,T|GENE2|0" eq_refl (or_intror eq_refl)
              Hall Hnd) as (vep' & Hret & Hval).
  - intros alt _. reflexivity.
  - exists vep'. split; [exact Hret|].
    assert ("T" ∈ ALT snv_example) as Hin by (by left).
    apply Hval in Hin. etrans; [exact Hin|]. vm_compute. reflexivity.
Defined.

(** What one pass of the loop over the variants leaves in the index, for a
    variant without a CSQ value. *)
Lemma index_variant_without_csq_frame (csq_fields : option (list string))
    (vep : allele_index) (v : variant) :
  INFO_CSQ v = None ->
  exists vep',
    index_variant csq_fields vep v = Return vep' /\
    (forall alt, alt ∈ ALT v ->
       stored vep' (CHROM v) (pretty (POS v)) (REF v) alt = Some None) /\
    (forall chrom pos ref alt,
       ¬ (chrom = CHROM v /\ pos = pretty (POS v) /\ ref = REF v /\ alt ∈ ALT v) ->
       stored vep' chrom pos ref alt = stored vep chrom pos ref alt).
Proof.
  intros Hcsq. unfold index_variant. rewrite Hcsq.
  eexists; split; [reflexivity|]. split.
  - intros alt Hin. rewrite stored_with_slot.
    rewrite (lookup_foldl_insert (fun _ => None)). by rewrite decide_True.
  - intros chrom pos ref alt Hne.
    destruct (decide (chrom = CHROM v /\ pos = pretty (POS v) /\ ref = REF v))
      as [(-> & -> & ->)|Hkey].
    + rewrite stored_with_slot, (lookup_foldl_insert (fun _ => None)).
      rewrite decide_False by (intros Hin; by apply Hne).
      apply stored_slot_at.
    + by apply stored_with_slot_ne.
Qed.

(** X9.  A variant without a CSQ value never makes index construction fail,
    whatever the schema is, and is never refused as a duplicate: after its
    pass the index holds the absent-marker for each of its ALTs, also for an
    ALT for which it held a record before, and holds for every other key what
    it held before. *)
Theorem index_variant_without_csq_overwrites (csq_fields : option (list string))
    (vep : allele_index) (v : variant) :
  INFO_CSQ v = None ->
  exists vep',
    index_variant csq_fields vep v = Return vep' /\
    (forall alt, alt ∈ ALT v ->
       stored vep' (CHROM v) (pretty (POS v)) (REF v) alt = Some None) /\
    (forall chrom pos ref alt,
       ¬ (chrom = CHROM v /\ pos = pretty (POS v) /\ ref = REF v /\ alt ∈ ALT v) ->
       stored vep' chrom pos ref alt = stored vep chrom pos ref alt).
Proof. apply index_variant_without_csq_frame. Qed.

Lemma index_variant_without_csq_overwrites_witness :
  exists vep vep',
    index_variant (Some ["Allele"; "Gene"; "PICK"]) ∅ snv_example = Return vep /\
    stored vep "1" "100" "A" "T"
    = Some (Some {[ "Allele" := "T"; "Gene" := "GENE1"; "PICK" := "1" ]}) /\
    index_variant (Some ["Allele"; "Gene"; "PICK"]) vep snv_without_csq
    = Return vep' /\
    stored vep' "1" "100" "A" "T" = Some None.
Proof.
  assert (exists vep, index_variant (Some ["Allele"; "Gene"; "PICK"]) ∅
                                    snv_example = Return vep /\
                      stored vep "1" "100" "A" "T"
                      = Some (Some {[ "Allele" := "T"; "Gene" := "GENE1";
                                      "PICK" := "1" ]}))
    as (vep & Hvep & Hst).
  { eexists. split; vm_compute; reflexivity. }
  assert (INFO_CSQ snv_without_csq = None) as Hcsq by reflexivity.
  destruct (index_variant_without_csq_overwrites
              (Some ["Allele"; "Gene"; "PICK"]) vep snv_without_csq Hcsq)
    as (vep' & Hvep' & Hown & _).
  exists vep, vep'. repeat split; [exact Hvep | exact Hst | exact Hvep' |].
  apply (Hown "T"). by left.
Defined.

Lemma index_variant_keeps_keys (csq_fields : option (list string))
    (vep vep' : allele_index) (v : variant) :
  index_variant csq_fields vep v = Return vep' ->
  (forall alt, alt ∈ ALT v ->
     is_Some (stored vep' (CHROM v) (pretty (POS v)) (REF v) alt)) /\
  (forall chrom pos ref alt,
     is_Some (stored vep chrom pos ref alt) ->
     is_Some (stored vep' chrom pos ref alt)).
Proof.
  intros Hret. destruct (INFO_CSQ v) as [csq|] eqn:Hcsq.
  - destruct (index_variant_with_csq_Return _ _ _ _ _ Hcsq Hret)
      as (fields & slot' & _ & _ & _ & -> & _ & _ & Hframe & Hval).
    split.
    + intros alt Hin. rewrite stored_with_slot, (Hval alt Hin). eauto.
    + intros chrom pos ref alt Hs.
      destruct (decide (chrom = CHROM v /\ pos = pretty (POS v) /\ ref = REF v))
        as [(-> & -> & ->)|Hkey]; [|by rewrite stored_with_slot_ne].
      rewrite stored_with_slot. destruct (decide (alt ∈ ALT v)) as [Hin|Hin].
      * rewrite (Hval alt Hin). eauto.
      * by rewrite (Hframe alt Hin).
  - destruct (index_variant_without_csq_frame csq_fields vep v Hcsq)
      as (vep'' & Hret' & Hown & Hframe).
    rewrite Hret in Hret'. injection Hret' as <-. split.
    + intros alt Hin. rewrite (Hown alt Hin). eauto.
    + intros chrom pos ref alt Hs.
      destruct (decide (chrom = CHROM v /\ pos = pretty (POS v) /\ ref = REF v
                        /\ alt ∈ ALT v)) as [(-> & -> & -> & Hin)|Hkey].
      * rewrite (Hown alt Hin). eauto.
      * by rewrite (Hframe _ _ _ _ Hkey).
Qed.

Lemma build_index_keeps_keys (csq_fields : option (list string))
    (variants : list variant) (vep vep' : allele_index) :
  build_index csq_fields vep variants = Return vep' ->
  (forall v alt, v ∈ variants -> alt ∈ ALT v ->
     is_Some (stored vep' (CHROM v) (pretty (POS v)) (REF v) alt)) /\
  (forall chrom pos ref alt,
     is_Some (stored vep chrom pos ref alt) ->
     is_Some (stored vep' chrom pos ref alt)).
Proof.
  revert vep. induction variants as [|v variants IH]; intros vep; cbn [build_index].
  - intros [= <-]. split; [by intros ? ? ?%elem_of_nil | done].
  - intros (vep1 & Hv & Hrest)%bind_returns.
    destruct (index_variant_keeps_keys _ _ _ _ Hv) as [Hown Hkeep].
    destruct (IH _ Hrest) as [Hall Hkeep']. split.
    + intros v' alt [->|Hin]%elem_of_cons Halt.
      * apply Hkeep', Hown, Halt.
      * by apply Hall.
    + intros chrom pos ref alt Hs. by apply Hkeep', Hkeep.
Qed.

(** X10.  When index construction returns, the index holds a record or the
    absent-marker for every ALT of every variant of the VCF, and for every
    key it held at the start.  So for a report row whose CHROM, POS and REF
    are those of a variant of the VCF, the value collected for an ALT of that
    variant never fails with [KeyError]: it is collected, or decoding it
    raises. *)
Theorem build_index_stores_every_key (csq_fields : option (list string))
    (variants : list variant) (vep vep' : allele_index) :
  build_index csq_fields vep variants = Return vep' ->
  (forall v alt, v ∈ variants -> alt ∈ ALT v ->
     is_Some (stored vep' (CHROM v) (pretty (POS v)) (REF v) alt)) /\
  (forall chrom pos ref alt,
     is_Some (stored vep chrom pos ref alt) ->
     is_Some (stored vep' chrom pos ref alt)) /\
  (forall v alt (entry : row) field,
     v ∈ variants -> alt ∈ ALT v ->
     entry !! "CHROM" = Some (CHROM v) ->
     entry !! "POS" = Some (pretty (POS v)) ->
     entry !! "REF" = Some (REF v) ->
     returns (collect vep' entry field alt) \/
     collect vep' entry field alt = Raise BinasciiError \/
     collect vep' entry field alt = Raise UnicodeDecodeError).
Proof.
  intros Hret. destruct (build_index_keeps_keys _ _ _ _ Hret) as [Hall Hkeep].
  split; [done|]. split; [done|].
  intros v alt entry field Hv Halt Hc Hp Hr.
  pose proof (collect_stored vep' entry field alt _ _ _ Hc Hp Hr) as Hcol.
  destruct (Hall v alt Hv Halt) as [x Hx]. rewrite Hx in Hcol.
  destruct x as [t|]; [|left; by eexists].
  rewrite Hcol. destruct (t !! field) as [annotation|]; [|left; by eexists].
  destruct (decode_annotation annotation) as [d|e] eqn:Hd; [left; by eexists|].
  right. by destruct (decode_annotation_raises _ _ Hd) as [->| ->]; [left|right].
Qed.

Lemma build_index_stores_every_key_witness :
  exists vep,
    build_index (Some ["Allele"; "Gene"; "PICK"]) ∅ [snv_example] = Return vep /\
    is_Some (stored vep "1" "100" "A" "T").
Proof.
  assert (exists vep, build_index (Some ["Allele"; "Gene"; "PICK"]) ∅
                                  [snv_example] = Return vep) as [vep Hvep].
  { eexists. vm_compute. reflexivity. }
  exists vep. split; [exact Hvep|].
  destruct (build_index_stores_every_key _ _ _ _ Hvep) as (Hall & _).
  apply (Hall snv_example "T"); by left.
Defined.

(** ** What streaming writes *)

Lemma collect_all_Forall2 (vep : allele_index) (entry : row) (field : string)
    (alts values : list string) :
  collect_all vep entry field alts = Return values <->
  Forall2 (fun alt x => collect vep entry field alt = Return x) alts values.
Proof.
  revert values. induction alts as [|alt alts IH]; intros values; simpl.
  - split; [intros [= <-]; constructor | by intros ->%Forall2_nil_inv_l].
  - split.
    + intros (x & Hx & H)%bind_returns.
      apply bind_returns in H as (xs & Hxs & [= <-]).
      constructor; [done | by apply IH].
    + intros (x & xs & Hx & Hxs & ->)%Forall2_cons_inv_l.
      apply IH in Hxs. by rewrite Hx, bind_Return, Hxs, bind_Return.
Qed.

(** X11.  For one requested field, a row without an ALT column raises
    [KeyError].  Otherwise, when the field is processed without an exception,
    the row is the row as it was with, under the field, the comma-joined
    values collected for the pieces of its ALT column, one value for each
    piece, in the order of the pieces; no other column has changed. *)
Theorem annotate_field_one_value_per_alt (vep : allele_index) (entry : row)
    (field : string) :
  (entry !! "ALT" = None ->
   annotate_field vep entry field = Raise (KeyError "ALT")) /\
  (forall alt_column r,
      entry !! "ALT" = Some alt_column ->
      annotate_field vep entry field = Return r ->
      exists values,
        Forall2 (fun alt x => collect vep entry field alt = Return x)
                (split "," alt_column) values /\
        r = <[field := join "," values]> entry /\
        forall column, column ≠ field -> r !! column = entry !! column).
Proof.
  unfold annotate_field. split.
  - intros H. by rewrite (getitem_None _ _ H).
  - intros alt_column r H. rewrite (getitem_Some _ _ _ H), bind_Return.
    intros (values & Hv & [= <-])%bind_returns.
    exists values. split; [by apply collect_all_Forall2|]. split; [done|].
    intros column Hne. by rewrite lookup_insert_ne.
Qed.

Lemma annotate_field_one_value_per_alt_witness :
  exists vep r values,
    build_index None ∅ [snv_without_csq] = Return vep /\
    annotate_field vep row_example "Gene" = Return r /\
    r = <["Gene" := join "," values]> row_example /\
    length values = length (split "," "T").
Proof.
  assert (exists vep r, build_index None ∅ [snv_without_csq] = Return vep /\
                        annotate_field vep row_example "Gene" = Return r)
    as (vep & r & Hvep & Hr).
  { do 2 eexists. split; vm_compute; reflexivity. }
  assert (row_example !! "ALT" = Some "T") as Halt by reflexivity.
  destruct (proj2 (annotate_field_one_value_per_alt vep row_example "Gene")
              "T" r Halt Hr) as (values & Hall & Heq & _).
  exists vep, r, values. repeat split; [exact Hvep | exact Hr | exact Heq |].
  symmetry. exact (Forall2_length _ _ _ Hall).
Defined.

Lemma annotate_row_columns (vep : allele_index) (vep_fields : list string)
    (entry r : row) :
  annotate_row vep entry vep_fields = Return r ->
  (forall column, column ∉ vep_fields -> r !! column = entry !! column) /\
  (forall field, field ∈ vep_fields -> is_Some (r !! field)).
Proof.
  revert entry. induction vep_fields as [|f fields IH]; intros entry; simpl.
  - intros [= <-]. split; [done | by intros ? ?%elem_of_nil].
  - intros (r1 & Hf & Hrest)%bind_returns.
    destruct (IH _ Hrest) as [Hsame Hsome].
    unfold annotate_field in Hf.
    apply bind_returns in Hf as (alt_column & _ & Hf).
    apply bind_returns in Hf as (values & _ & [= <-]). split.
    + intros column Hnin. rewrite Hsame by (intros ?; apply Hnin; by right).
      apply lookup_insert_ne. intros <-. apply Hnin. by left.
    + intros field [->|Hin]%elem_of_cons; [|by apply Hsome].
      destruct (decide (f ∈ fields)) as [Hin|Hnin]; [by apply Hsome|].
      rewrite (Hsame f Hnin), lookup_insert_eq. eauto.
Qed.

Lemma stream_report_outcome (vep : allele_index) (vep_fields columns : list string)
    (entries written : list row) :
  match stream_report vep vep_fields columns written entries with
  | Complete cols out =>
      cols = columns /\
      exists new,
        out = (written ++ new)%list /\
        Forall2 (fun entry r => annotate_row vep entry vep_fields = Return r)
                entries new
  | Abort_report cols out e =>
      cols = columns /\
      exists new entry,
        out = (written ++ new)%list /\
        Forall2 (fun entry r => annotate_row vep entry vep_fields = Return r)
                (take (length new) entries) new /\
        entries !! length new = Some entry /\
        annotate_row vep entry vep_fields = Raise e
  | _ => False
  end.
Proof.
  revert written. induction entries as [|entry entries IH]; intros written; simpl.
  - split; [done|]. exists []. by rewrite app_nil_r.
  - destruct (annotate_row vep entry vep_fields) as [r|e] eqn:Hr.
    + specialize (IH (written ++ [r])%list).
      destruct (stream_report vep vep_fields columns (written ++ [r]) entries)
        as [| |cols out e|cols out]; try done.
      * destruct IH as (-> & new & entry' & -> & Hall & Hnext & Hraise).
        split; [done|]. exists (r :: new), entry'.
        rewrite <- app_assoc. repeat split; try done. simpl. by constructor.
      * destruct IH as (-> & new & -> & Hall).
        split; [done|]. exists (r :: new).
        rewrite <- app_assoc. split; [done|]. by constructor.
    + split; [done|]. exists [], entry. rewrite app_nil_r.
      repeat split; done.
Qed.

(** X12.  When a run completes, the output has the columns of the report
    followed by the requested fields, and one row for each row of the report,
    in the same order.  When a run aborts while streaming, the rows written
    are those of the first rows of the report, fewer than the report has, and
    the exception is the one raised on the next row.  Either way a written
    row holds a value under every requested field, and under every other
    column what the report row holds there. *)
Theorem main_written_rows (header : list header_info) (variants : list variant)
    (fieldnames : list string) (entries : list row) (vep_fields : list string) :
  (forall columns written,
      main header variants fieldnames entries vep_fields
      = Complete columns written ->
      columns = (fieldnames ++ vep_fields)%list /\
      Forall2 (row_kept vep_fields) entries written) /\
  (forall columns written e,
      main header variants fieldnames entries vep_fields
      = Abort_report columns written e ->
      columns = (fieldnames ++ vep_fields)%list /\
      length written < length entries /\
      Forall2 (row_kept vep_fields) (take (length written) entries) written /\
      exists csq_fields vep entry,
        parse_csq_header header = Return csq_fields /\
        build_index csq_fields ∅ variants = Return vep /\
        entries !! length written = Some entry /\
        annotate_row vep entry vep_fields = Raise e).
Proof.
  unfold main.
  destruct (parse_csq_header header) as [csq_fields|] eqn:Hh; [|by split].
  destruct (build_index csq_fields ∅ variants) as [vep|] eqn:Hb; [|by split].
  pose proof (stream_report_outcome vep vep_fields (fieldnames ++ vep_fields)
                entries []) as H.
  assert (forall l new : list row,
             Forall2 (fun entry r => annotate_row vep entry vep_fields = Return r)
                     l new -> Forall2 (row_kept vep_fields) l new) as Hkept.
  { intros l new Hall. eapply Forall2_impl; [exact Hall|].
    intros entry r Hr. by apply annotate_row_columns in Hr. }
  split.
  - intros columns written Heq. rewrite Heq in H.
    destruct H as (-> & new & -> & Hall). split; [done|]. by apply Hkept.
  - intros columns written e Heq. rewrite Heq in H.
    destruct H as (-> & new & entry & -> & Hall & Hnext & Hraise).
    simpl in *. split; [done|]. split; [by apply lookup_lt_Some in Hnext|].
    split; [by apply Hkept|]. by exists csq_fields, vep, entry.
Qed.

Lemma main_written_rows_witness :
  exists r,
    main csq_header_example [snv_example] report_columns [row_example] ["Gene"]
    = Complete (report_columns ++ ["Gene"]) [r] /\
    r !! "CHROM" = Some "1" /\ is_Some (r !! "Gene").
Proof.
  assert (main csq_header_example [snv_example] report_columns [row_example]
               ["Gene"]
          = Complete (report_columns ++ ["Gene"])
                     [<["Gene" := "GENE1"]> row_example]) as Hrun
      by (vm_compute; reflexivity).
  destruct (proj1 (main_written_rows csq_header_example [snv_example]
                     report_columns [row_example] ["Gene"]) _ _ Hrun)
    as [_ Hkept].
  apply Forall2_cons_1 in Hkept as [[Hsame Hsome] _].
  exists (<["Gene" := "GENE1"]> row_example). split; [exact Hrun|]. split.
  - rewrite Hsame; [reflexivity|].
    apply (bool_decide_unpack _). vm_compute. exact I.
  - apply Hsome. by left.
Defined.

(** ** The schema the header gives *)

Lemma line_of_rest (s : string) :
  exists rest,
    s = line_of s ++ rest /\ occurs newline (line_of s) = false /\
    line_of rest = "".
Proof.
  induction s as [|c s (rest & Hs & Ho & Hr)]; cbn [line_of].
  - by exists "".
  - case_decide as Hc.
    + exists (String c s). repeat split. cbn [line_of]. by rewrite decide_True.
    + exists rest. rewrite append_String, <- Hs. repeat split; [|done].
      cbn [occurs]. by rewrite bool_decide_eq_false_2.
Qed.

Lemma format_match_here_Some (description g : string) :
  format_match_here description = Some g ->
  exists tail,
    description = "Format: " ++ g ++ String quote tail /\
    occurs newline g = false /\ occurs quote (line_of tail) = false.
Proof.
  unfold format_match_here.
  destruct (strip_prefix "Format: " description) as [rest|] eqn:Hp; [|done].
  simpl. intros (post & Hl & Hq)%before_last_quote_Some.
  apply strip_prefix_Some in Hp.
  destruct (line_of_rest rest) as (tail & Hrest & Ho & Htail).
  rewrite Hl, occurs_append in Ho. apply orb_false_iff in Ho as [Hg Hpost].
  cbn [occurs] in Hpost. apply orb_false_iff in Hpost as [_ Hpost].
  exists (post ++ tail). split; [|split; [done|]].
  - rewrite Hp. f_equal. rewrite Hrest at 1. rewrite Hl.
    by rewrite append_assoc, append_String.
  - rewrite line_of_append by done. rewrite Htail.
    clear -Hq. induction post as [|c post IH]; [done|].
    cbn [occurs] in Hq. apply orb_false_iff in Hq as [Hc Hq].
    rewrite append_String. cbn [occurs]. by rewrite Hc, IH.
Qed.

Lemma format_search_Some (description g : string) :
  format_search description = Some g ->
  exists pre tail,
    description = pre ++ "Format: " ++ g ++ String quote tail /\
    occurs newline g = false /\ occurs quote (line_of tail) = false.
Proof.
  induction description as [|c d IH]; cbn [format_search].
  - destruct (format_match_here "") eqn:Hm; [|done]. intros [= ->].
    apply format_match_here_Some in Hm as (tail & ? & ? & ?).
    by exists "", tail.
  - destruct (format_match_here (String c d)) as [g'|] eqn:Hm.
    + intros [= ->]. apply format_match_here_Some in Hm as (tail & ? & ? & ?).
      by exists "", tail.
    + intros (pre & tail & -> & ? & ?)%IH.
      exists (String c pre), tail. by rewrite append_String.
Qed.

(** X13.  [parse_csq_header] is decided by the first header entry whose ID is
    CSQ: the entries after it are not looked at.  It never returns [None] on
    a header that has such an entry.  The schema it returns is the text of
    the description of that entry between a marker ['Format: '] and the last
    quote of the line of the marker, split at ['|']; it has at least one
    field. *)
Theorem parse_csq_header_first_entry (before : list header_info)
    (info : header_info) (after : list header_info) :
  Forall (fun i => i !! "ID" ≠ Some "CSQ") before ->
  info !! "ID" = Some "CSQ" ->
  parse_csq_header (before ++ info :: after) = parse_csq_header [info] /\
  parse_csq_header [info] ≠ Return None /\
  forall csq_fields,
    parse_csq_header [info] = Return (Some csq_fields) ->
    csq_fields ≠ [] /\
    exists description pre g tail,
      info !! "Description" = Some description /\
      description = pre ++ "Format: " ++ g ++ String quote tail /\
      occurs newline g = false /\
      occurs quote (line_of tail) = false /\
      csq_fields = split "|" g.
Proof.
  intros Hb Hid. rewrite (parse_csq_header_skip _ _ Hb).
  cbn [parse_csq_header]. rewrite bool_decide_eq_true_2 by done.
  unfold getitem. destruct (info !! "Description") as [description|]; [|done].
  rewrite bind_Return.
  destruct (format_search description) as [g|] eqn:Hg; [|done].
  split; [done|]. split; [done|]. intros csq_fields [= <-].
  split; [apply split_nonempty|].
  apply format_search_Some in Hg as (pre & tail & ? & ? & ?).
  by exists description, pre, g, tail.
Qed.

Lemma parse_csq_header_first_entry_witness :
  parse_csq_header (csq_header_example ++ [header_without_format])
  = parse_csq_header csq_header_example /\
  parse_csq_header csq_header_example = Return (Some ["Allele"; "Gene"; "PICK"]).
Proof.
  split; [|reflexivity].
  assert (Forall (fun i : header_info => i !! "ID" ≠ Some "CSQ") []) as Hb
      by constructor.
  apply (parse_csq_header_first_entry [] _ [header_without_format] Hb).
  reflexivity.
Defined.
